(** * SonarI18n: locale detection, translation store, resolver and switcher

    A shallow embedding of the [SonarI18n] class of the i18n module
    (interfaces [Translation], [LanguageConfig]; methods [detectLanguage],
    [extractLanguageFromPath], [loadLanguageTranslations],
    [getInlineTranslations], [t], [getTranslation], [changeLanguage],
    [updateURL], [isLanguageSupported], [getLocalizedURL]).

    Conventions.
    - A JavaScript string is a [string]: a sequence of code units below 256.
      The only texts with other characters are the leaves of the built-in
      tables, which are given by their bytes in the source file.
    - [Map<string, V>] is a [gmap string V].
    - [null] and [undefined] results are [None].
    - The browser objects the class reads and writes ([window.location],
      [localStorage], [navigator], [document], [history], [fetch]) are the
      fields of the record [Browser]; what the outside world answers (the
      response to a [fetch]) is an argument of the step that consumes it. *)

From Stdlib Require Import Ascii String.
From stdpp Require Import gmap strings list pretty.

#[local] Set Warnings "-register-all".

#[local] Arguments String.append !_ _ / : simpl nomatch.

(** ** The JavaScript string built-ins the class relies on *)

Module JS.

(** [Boolean(s)] for a string: the empty string is falsy. *)
Definition truthy (s : string) : bool :=
  match s with "" => false | _ => true end.

(** Truthiness of a [string | null] value. *)
Definition truthy_opt (o : option string) : bool :=
  match o with Some s => truthy s | None => false end.

(** [s.split(sep)] for a one-character separator. *)
Fixpoint split (sep : ascii) (s : string) : list string :=
  match s with
  | "" => [""]
  | String c s' =>
      if Ascii.eqb c sep then "" :: split sep s'
      else match split sep s' with
           | piece :: pieces => String c piece :: pieces
           | [] => [String c ""]
           end
  end.

(** [s.split(sep)[0]]: the text before the first separator. *)
Definition split_head (sep : ascii) (s : string) : string :=
  match split sep s with piece :: _ => piece | [] => "" end.

(** [xs.filter(Boolean)] on an array of strings. *)
Definition filter_Boolean (xs : list string) : list string :=
  List.filter truthy xs.

(** [s.startsWith(p)], returning what follows the prefix. *)
Fixpoint strip_prefix (p s : string) : option string :=
  match p, s with
  | "", _ => Some s
  | String a p', String b s' =>
      if Ascii.eqb a b then strip_prefix p' s' else None
  | String _ _, "" => None
  end.

(** The characters matched by [\s] among the code units below 256:
    TAB, LF, VT, FF, CR, SPACE and NO-BREAK SPACE. *)
Definition is_space (c : ascii) : bool :=
  match c with
  | "009" | "010" | "011" | "012" | "013" | " " | "160" => true
  | _ => false
  end%char.

(** [GetSubstitution] of the language standard for a match without
    capture groups: in the replacement text, [$$] stands for a dollar,
    [$&] for the matched text, [$`] for the text before the match and
    [$'] for the text after it; every other character, and a dollar
    followed by anything else, stands for itself. *)
Fixpoint GetSubstitution (replacement matched before after : string)
  : string :=
  match replacement with
  | "" => ""
  | String "$" (String "$" r) =>
      String "$" (GetSubstitution r matched before after)
  | String "$" (String "&" r) =>
      matched +:+ GetSubstitution r matched before after
  | String "$" (String "`" r) =>
      before +:+ GetSubstitution r matched before after
  | String "$" (String "'" r) =>
      after +:+ GetSubstitution r matched before after
  | String c r => String c (GetSubstitution r matched before after)
  end.

(** [s.replace(pattern, replacement)] for a string [pattern]: the first
    occurrence only; [before] is the text already scanned. *)
Fixpoint replace_from (pattern replacement before s : string) : string :=
  match strip_prefix pattern s with
  | Some after => GetSubstitution replacement pattern before after +:+ after
  | None =>
      match s with
      | "" => ""
      | String c s' =>
          String c (replace_from pattern replacement
                      (before +:+ String c "") s')
      end
  end.

Definition replace (s pattern replacement : string) : string :=
  replace_from pattern replacement "" s.

End JS.

(** ** Locale registry *)

Inductive Direction := ltr | rtl.

(** [LanguageConfig], without the two display-only fields [nativeName]
    and [flag]. *)
Record LanguageConfig := {
  code : string;
  name : string;
  direction : Direction;
  dateFormat : string;
  currency : string;
  enabled : bool
}.

(** The array literal of [initializeLanguages]. *)
Definition languages : list LanguageConfig := [
  {| code := "en"; name := "English"; direction := ltr;
     dateFormat := "MM/DD/YYYY"; currency := "USD"; enabled := true |};
  {| code := "es"; name := "Spanish"; direction := ltr;
     dateFormat := "DD/MM/YYYY"; currency := "EUR"; enabled := true |};
  {| code := "fr"; name := "French"; direction := ltr;
     dateFormat := "DD/MM/YYYY"; currency := "EUR"; enabled := true |};
  {| code := "de"; name := "German"; direction := ltr;
     dateFormat := "DD.MM.YYYY"; currency := "EUR"; enabled := true |};
  {| code := "ja"; name := "Japanese"; direction := ltr;
     dateFormat := "YYYY/MM/DD"; currency := "JPY"; enabled := true |};
  {| code := "zh"; name := "Chinese (Simplified)"; direction := ltr;
     dateFormat := "YYYY/MM/DD"; currency := "CNY"; enabled := true |};
  {| code := "ar"; name := "Arabic"; direction := rtl;
     dateFormat := "DD/MM/YYYY"; currency := "SAR"; enabled := false |}
].

(** [languages.forEach(lang => this.languageConfigs.set(lang.code, lang))] *)
Definition initializeLanguages : gmap string LanguageConfig :=
  foldl (fun configs lang => <[code lang := lang]> configs) ∅ languages.

Definition languageConfigs : gmap string LanguageConfig :=
  initializeLanguages.

(** [private defaultLanguage = 'en'], never reassigned. *)
Definition defaultLanguage : string := "en".

Definition isLanguageSupported (language : string) : bool :=
  match languageConfigs !! language with
  | Some config => enabled config
  | None => false
  end.

(** ** The browser, as far as the class touches it *)

Record LanguageChanged := {
  detail_language : string;
  detail_config : option LanguageConfig;
  detail_isRTL : bool
}.

Record Browser := {
  (** [window.location.pathname], [.search] and [.hash]; in a browser the
      path of a page starts with a slash *)
  pathname : string;
  search : string;
  hash : string;
  (** [new URLSearchParams(window.location.search).get('lang')] *)
  search_lang : option string;
  (** [localStorage]; [setItem] throws when the storage is not writable
      ([getItem] is taken to succeed: where the constructor reaches it and
      it throws, the constructor throws and there is no instance) *)
  localStorage : gmap string string;
  storage_writable : bool;
  (** [navigator.language] and [navigator.languages] *)
  navigator_language : string;
  navigator_languages : list string;
  (** [document.documentElement.dir] and [.lang] *)
  document_dir : Direction;
  document_lang : string;
  (** URLs requested through [fetch], oldest first *)
  fetched : list string;
  (** URLs passed to [history.replaceState], oldest first *)
  replaced : list string;
  (** the [languageChanged] events dispatched on [document], oldest first *)
  dispatched : list LanguageChanged;
  (** number of [console.warn] / [console.error] calls *)
  logged : nat
}.

(** ** Locale detector *)

Definition extractLanguageFromPath (b : Browser) : option string :=
  let pathSegments := JS.filter_Boolean (JS.split "/" (pathname b)) in
  match pathSegments with
  | potentialLang :: _ =>
      if (String.length potentialLang =? 2)%nat
           && isLanguageSupported potentialLang
      then Some potentialLang
      else None
  | [] => None
  end.

(** The [for (const lang of navigator.languages)] loop of
    [detectLanguage]; [None] when the loop ends without returning. *)
Fixpoint scan_languages (langs : list string) : option string :=
  match langs with
  | [] => None
  | lang :: rest =>
      let langCode := JS.split_head "-" lang in
      if isLanguageSupported langCode then Some langCode
      else scan_languages rest
  end.

(** A guard [x && this.isLanguageSupported(x)] on a [string | null]. *)
Definition supported_value (x : option string) : bool :=
  JS.truthy_opt x && from_option isLanguageSupported false x.

(** The string held by a value that passed such a guard. *)
Definition the_string (x : option string) : string := default "" x.

(** [detectLanguage]: the value assigned to [this.currentLanguage]. *)
Definition detectLanguage (b : Browser) : string :=
  let urlLang := search_lang b in
  if supported_value urlLang then the_string urlLang
  else
    let pathLang := extractLanguageFromPath b in
    if supported_value pathLang then the_string pathLang
    else
      let storedLang := localStorage b !! "sonar_language" in
      if supported_value storedLang then the_string storedLang
      else
        let browserLang := JS.split_head "-" (navigator_language b) in
        if isLanguageSupported browserLang then browserLang
        else
          match scan_languages (navigator_languages b) with
          | Some langCode => langCode
          | None => defaultLanguage
          end.

(** ** Translation trees as parsed JSON *)

(** What [response.json()] can deliver. A number is [mantissa * 10 ^
    exponent]; the class only ever asks for its type and truthiness. *)
Inductive JSON :=
| JNull
| JBool (b : bool)
| JNumber (mantissa exponent : Z)
| JString (s : string)
| JArray (items : list JSON)
| JObject (properties : list (string * JSON)).

Inductive TypeOf := type_object | type_string | type_number | type_boolean.

Definition typeof (v : JSON) : TypeOf :=
  match v with
  | JNull | JArray _ | JObject _ => type_object
  | JBool _ => type_boolean
  | JNumber _ _ => type_number
  | JString _ => type_string
  end.

Definition is_object_type (v : JSON) : bool :=
  match typeof v with type_object => true | _ => false end.

(** [Boolean(v)] *)
Definition truthy_value (v : JSON) : bool :=
  match v with
  | JNull => false
  | JBool b => b
  | JNumber mantissa _ => negb (mantissa =? 0)%Z
  | JString s => JS.truthy s
  | JArray _ | JObject _ => true
  end.

(** The first binding of a key in a property list. *)
Fixpoint assoc {A} (k : string) (properties : list (string * A)) : option A :=
  match properties with
  | [] => None
  | (k', v) :: rest => if String.eqb k k' then Some v else assoc k rest
  end.

(** The element of an array whose index prints as [k]; [i] is the index
    of the first element of [items]. *)
Fixpoint array_item (k : string) (i : nat) (items : list JSON) : option JSON :=
  match items with
  | [] => None
  | item :: rest =>
      if String.eqb k (pretty i) then Some item else array_item k (S i) rest
  end.

(** [k in current ? current[k] : <absent>] for an object or array made by
    [JSON.parse], own properties only. A name that is found on the
    prototype instead ([constructor], [toString], [__proto__], ...) is
    reported absent here: in the source the walk then moves to a function
    or to a prototype object, from which no string is reachable, so
    [getTranslation] returns [null] in both readings. *)
Definition property (k : string) (current : JSON) : option JSON :=
  match current with
  | JObject properties => assoc k properties
  | JArray items =>
      if String.eqb k "length"
      then Some (JNumber (Z.of_nat (length items)) 0)
      else array_item k 0 items
  | _ => None
  end.

(** ** Engine state *)

(** The mutable fields of the [SonarI18n] instance ([defaultLanguage] and
    [languageConfigs] are constants above). *)
Record I18n := {
  currentLanguage : string;
  translations : gmap string JSON;
  isRTL : bool;
  initialized : bool
}.

Record World := {
  i18n : I18n;
  browser : Browser
}.

Definition current (w : World) : string := currentLanguage (i18n w).

Definition set_currentLanguage (language : string) (w : World) : World :=
  {| i18n := {| currentLanguage := language;
                translations := translations (i18n w);
                isRTL := isRTL (i18n w);
                initialized := initialized (i18n w) |};
     browser := browser w |}.

Definition set_translation (language : string) (tree : JSON) (w : World)
  : World :=
  {| i18n := {| currentLanguage := currentLanguage (i18n w);
                translations := <[language := tree]> (translations (i18n w));
                isRTL := isRTL (i18n w);
                initialized := initialized (i18n w) |};
     browser := browser w |}.

Definition set_isRTL (flag : bool) (w : World) : World :=
  {| i18n := {| currentLanguage := currentLanguage (i18n w);
                translations := translations (i18n w);
                isRTL := flag;
                initialized := initialized (i18n w) |};
     browser := browser w |}.

Definition with_browser (f : Browser -> Browser) (w : World) : World :=
  {| i18n := i18n w; browser := f (browser w) |}.

Definition log_fetch (url : string) (b : Browser) : Browser :=
  {| pathname := pathname b; search := search b; hash := hash b;
     search_lang := search_lang b; localStorage := localStorage b;
     storage_writable := storage_writable b;
     navigator_language := navigator_language b;
     navigator_languages := navigator_languages b;
     document_dir := document_dir b; document_lang := document_lang b;
     fetched := fetched b ++ [url]; replaced := replaced b;
     dispatched := dispatched b; logged := logged b |}.

Definition log_console (b : Browser) : Browser :=
  {| pathname := pathname b; search := search b; hash := hash b;
     search_lang := search_lang b; localStorage := localStorage b;
     storage_writable := storage_writable b;
     navigator_language := navigator_language b;
     navigator_languages := navigator_languages b;
     document_dir := document_dir b; document_lang := document_lang b;
     fetched := fetched b; replaced := replaced b;
     dispatched := dispatched b; logged := S (logged b) |}.

(** Does the text start with two slashes? As a URL, such a text names a
    host of its own (what follows the slashes), not a path on the host of
    the page. *)
Definition names_host (url : string) : bool :=
  match JS.strip_prefix "//" url with
  | Some _ => true
  | None => false
  end.

(** [history.replaceState({}, '', url)] where [url] is [newPath] followed
    by the current search and hash (which start with [?] and [#] when
    they are not empty). The browser resolves [url] against the address of
    the page and refuses, with a [SecurityError], an address of another
    origin: that is the case when [newPath] starts with two slashes, the
    host it then names being a language code and not the host of the page.
    Otherwise the path becomes [newPath]. [None] stands for the refusal,
    which leaves everything as it is. *)
Definition replaceState (newPath : string) (b : Browser) : option Browser :=
  if names_host newPath then None
  else
    Some
      {| pathname := newPath; search := search b; hash := hash b;
         search_lang := search_lang b; localStorage := localStorage b;
         storage_writable := storage_writable b;
         navigator_language := navigator_language b;
         navigator_languages := navigator_languages b;
         document_dir := document_dir b; document_lang := document_lang b;
         fetched := fetched b;
         replaced := replaced b ++ [newPath +:+ search b +:+ hash b];
         dispatched := dispatched b; logged := logged b |}.

(** [document.documentElement.dir = dir; document.documentElement.lang =
    lang]. *)
Definition set_document (dir : Direction) (lang : string) (b : Browser)
  : Browser :=
  {| pathname := pathname b; search := search b; hash := hash b;
     search_lang := search_lang b; localStorage := localStorage b;
     storage_writable := storage_writable b;
     navigator_language := navigator_language b;
     navigator_languages := navigator_languages b;
     document_dir := dir; document_lang := lang;
     fetched := fetched b; replaced := replaced b;
     dispatched := dispatched b; logged := logged b |}.

(** [localStorage.setItem(key, value)] on a writable storage. *)
Definition setItem (key value : string) (b : Browser) : Browser :=
  {| pathname := pathname b; search := search b; hash := hash b;
     search_lang := search_lang b;
     localStorage := <[key := value]> (localStorage b);
     storage_writable := storage_writable b;
     navigator_language := navigator_language b;
     navigator_languages := navigator_languages b;
     document_dir := document_dir b; document_lang := document_lang b;
     fetched := fetched b; replaced := replaced b;
     dispatched := dispatched b; logged := logged b |}.

(** [document.dispatchEvent(event)] *)
Definition dispatchEvent (event : LanguageChanged) (b : Browser) : Browser :=
  {| pathname := pathname b; search := search b; hash := hash b;
     search_lang := search_lang b; localStorage := localStorage b;
     storage_writable := storage_writable b;
     navigator_language := navigator_language b;
     navigator_languages := navigator_languages b;
     document_dir := document_dir b; document_lang := document_lang b;
     fetched := fetched b; replaced := replaced b;
     dispatched := dispatched b ++ [event]; logged := logged b |}.

(** What a [throw] carries, and how a promise settles. *)
Inductive Thrown :=
| SyntaxError | FetchError | HttpError | JSONError | StorageError
| SecurityError.

Inductive Settled := Fulfilled | Rejected (error : Thrown).

(** ** Translation store *)

(** The three tables of the object literal of [getInlineTranslations].
    The texts are those of the source file, byte for byte: the file has
    its accented letters and the copyright sign mis-encoded (it reads
    ['Dise√±o'], not ['Diseño']), and several of the characters it has in
    their place lie beyond the code units below 256, so that such a text
    is given here by the bytes of the file (UTF-8) and stands for the
    JavaScript string the file denotes. *)
Definition inline_en : JSON :=
  JObject [
    ("nav", JObject [
       ("home", JString "Home");
       ("work", JString "Work");
       ("studio", JString "Studio");
       ("team", JString "Team");
       ("blog", JString "Blog");
       ("contact", JString "Contact")]);
    ("hero", JObject [
       ("title", JString "Crafting Exceptional Sound Experiences");
       ("subtitle", JString "Premium Sound Design");
       ("description", JString "We create immersive audio experiences for film, television, and new media.");
       ("cta", JString "Explore Our Work")]);
    ("common", JObject [
       ("loading", JString "Loading...");
       ("read_more", JString "Read More");
       ("learn_more", JString "Learn More");
       ("contact_us", JString "Contact Us");
       ("get_started", JString "Get Started");
       ("view_project", JString "View Project");
       ("play_video", JString "Play Video");
       ("close", JString "Close");
       ("next", JString "Next");
       ("previous", JString "Previous");
       ("search", JString "Search");
       ("filter", JString "Filter");
       ("sort", JString "Sort");
       ("all", JString "All")]);
    ("footer", JObject [
       ("description", JString "Crafting exceptional sound experiences for film, television, and new media.");
       ("navigation", JString "Navigation");
       ("services", JString "Services");
       ("connect", JString "Connect");
       ("copyright", JString "¬© 2024 Sonar Music. All rights reserved.");
       ("privacy", JString "Privacy Policy");
       ("terms", JString "Terms of Service")])
  ].

Definition inline_es : JSON :=
  JObject [
    ("nav", JObject [
       ("home", JString "Inicio");
       ("work", JString "Trabajo");
       ("studio", JString "Estudio");
       ("team", JString "Equipo");
       ("blog", JString "Blog");
       ("contact", JString "Contacto")]);
    ("hero", JObject [
       ("title", JString "Creando Experiencias Sonoras Excepcionales");
       ("subtitle", JString "Dise√±o de Sonido Premium");
       ("description", JString "Creamos experiencias de audio inmersivas para cine, televisi√≥n y nuevos medios.");
       ("cta", JString "Explora Nuestro Trabajo")]);
    ("common", JObject [
       ("loading", JString "Cargando...");
       ("read_more", JString "Leer M√°s");
       ("learn_more", JString "Aprende M√°s");
       ("contact_us", JString "Cont√°ctanos");
       ("get_started", JString "Comenzar");
       ("view_project", JString "Ver Proyecto");
       ("play_video", JString "Reproducir Video");
       ("close", JString "Cerrar");
       ("next", JString "Siguiente");
       ("previous", JString "Anterior");
       ("search", JString "Buscar");
       ("filter", JString "Filtrar");
       ("sort", JString "Ordenar");
       ("all", JString "Todos")]);
    ("footer", JObject [
       ("description", JString "Creando experiencias sonoras excepcionales para cine, televisi√≥n y nuevos medios.");
       ("navigation", JString "Navegaci√≥n");
       ("services", JString "Servicios");
       ("connect", JString "Conectar");
       ("copyright", JString "¬© 2024 Sonar Music. Todos los derechos reservados.");
       ("privacy", JString "Pol√≠tica de Privacidad");
       ("terms", JString "T√©rminos de Servicio")])
  ].

Definition inline_fr : JSON :=
  JObject [
    ("nav", JObject [
       ("home", JString "Accueil");
       ("work", JString "Travail");
       ("studio", JString "Studio");
       ("team", JString "√âquipe");
       ("blog", JString "Blog");
       ("contact", JString "Contact")]);
    ("hero", JObject [
       ("title", JString "Cr√©er des Exp√©riences Sonores Exceptionnelles");
       ("subtitle", JString "Design Sonore Premium");
       ("description", JString "Nous cr√©ons des exp√©riences audio immersives pour le cin√©ma, la t√©l√©vision et les nouveaux m√©dias.");
       ("cta", JString "Explorez Notre Travail")]);
    ("common", JObject [
       ("loading", JString "Chargement...");
       ("read_more", JString "Lire Plus");
       ("learn_more", JString "En Savoir Plus");
       ("contact_us", JString "Contactez-nous");
       ("get_started", JString "Commencer");
       ("view_project", JString "Voir le Projet");
       ("play_video", JString "Lire la Vid√©o");
       ("close", JString "Fermer");
       ("next", JString "Suivant");
       ("previous", JString "Pr√©c√©dent");
       ("search", JString "Rechercher");
       ("filter", JString "Filtrer");
       ("sort", JString "Trier");
       ("all", JString "Tous")]);
    ("footer", JObject [
       ("description", JString "Cr√©er des exp√©riences sonores exceptionnelles pour le cin√©ma, la t√©l√©vision et les nouveaux m√©dias.");
       ("navigation", JString "Navigation");
       ("services", JString "Services");
       ("connect", JString "Se Connecter");
       ("copyright", JString "¬© 2024 Sonar Music. Tous droits r√©serv√©s.");
       ("privacy", JString "Politique de Confidentialit√©");
       ("terms", JString "Conditions de Service")])
  ].

(** The object literal of [getInlineTranslations]. *)
Definition inline_tables : list (string * JSON) :=
  [("en", inline_en); ("es", inline_es); ("fr", inline_fr)].

(** [translations[language] || translations.en]. Every table is an
    object, hence truthy. The codes the class passes here are registry
    codes and the default language, none of which names a property of
    [Object.prototype]. *)
Definition getInlineTranslations (language : string) : JSON :=
  match assoc language inline_tables with
  | Some table => if truthy_value table then table else inline_en
  | None => inline_en
  end.

(** The answer of the server to one [fetch]. *)
Inductive Body := NotJSON | Parsed (value : JSON).
Inductive Response := NoResponse | Responded (ok : bool) (body : Body).

Definition translationsURL (language : string) : string :=
  "/src/data/i18n/" +:+ language +:+ ".json".

(** [loadLanguageTranslations] up to its first [await]: the request is
    sent. *)
Definition load_request (language : string) (w : World) : World :=
  with_browser (log_fetch (translationsURL language)) w.

(** The rest of its [try] block, once the server has answered: either
    the parsed translations or what was thrown. *)
Definition load_try (response : Response) : Thrown + JSON :=
  match response with
  | NoResponse => inl FetchError
  | Responded ok body =>
      if negb ok then inl HttpError
      else match body with
           | NotJSON => inl JSONError
           | Parsed value => inr value
           end
  end.

(** [loadLanguageTranslations] from the answer on, with its [catch]. *)
Definition load_settle (language : string) (response : Response) (w : World)
  : World * Settled :=
  match load_try response with
  | inr value => (set_translation language value w, Fulfilled)
  | inl _ =>
      let w := with_browser log_console w in
      (set_translation language (getInlineTranslations language) w, Fulfilled)
  end.

Definition loadLanguageTranslations
    (language : string) (response : Response) (w : World) : World * Settled :=
  load_settle language response (load_request language w).

(** "The fetch collaborator fails or returns malformed data": no answer,
    an answer that is not OK, or a body that is not JSON. *)
Definition failed (response : Response) : bool :=
  match response with
  | NoResponse => true
  | Responded ok body =>
      negb ok || match body with NotJSON => true | Parsed _ => false end
  end.

(** The built-in table of a code, when there is one. *)
Definition built_in (language : string) : option JSON :=
  assoc language inline_tables.

(** The tree a load leaves in the store for an answer. *)
Definition stored (language : string) (response : Response) : JSON :=
  match load_try response with
  | inr value => value
  | inl _ => getInlineTranslations language
  end.

(** Number of [fetch] calls made so far for a URL. *)
Definition fetch_count (url : string) (w : World) : nat :=
  length (List.filter (String.eqb url) (fetched (browser w))).

(** ** Resolver *)

(** The [for (const k of keys)] loop of [getTranslation]: [None] when the
    loop returns [null], otherwise the final value of [current]. *)
Fixpoint walk (keys : list string) (current : JSON) : option JSON :=
  match keys with
  | [] => Some current
  | k :: rest =>
      if truthy_value current && is_object_type current
      then match property k current with
           | Some next => walk rest next
           | None => None
           end
      else None
  end.

Definition getTranslation (key language : string) (w : World)
  : option string :=
  match translations (i18n w) !! language with
  | None => None
  | Some tree =>
      if negb (truthy_value tree) then None
      else
        let keys := JS.split "." key in
        match walk keys tree with
        | Some (JString s) => Some s
        | _ => None
        end
  end.

(** *** The placeholder pattern *)

(** [SyntaxCharacter] of the regular-expression grammar. *)
Definition is_syntax_character (c : ascii) : bool :=
  match c with
  | "^" | "$" | "\" | "." | "*" | "+" | "?"
  | "(" | ")" | "[" | "]" | "{" | "}" | "|" => true
  | _ => false
  end%char.

Fixpoint all_chars (p : ascii -> bool) (s : string) : bool :=
  match s with
  | "" => true
  | String c s' => p c && all_chars p s'
  end.

Definition is_literal_text (s : string) : bool :=
  all_chars (fun c => negb (is_syntax_character c)) s.

Definition opens_no_escape_or_class (s : string) : bool :=
  all_chars (fun c => negb (Ascii.eqb c "\" || Ascii.eqb c "[")) s.

(** Do the parentheses of [s] balance, starting [depth] groups deep? *)
Fixpoint parentheses_balance (depth : nat) (s : string) : bool :=
  match s with
  | "" => (depth =? 0)%nat
  | String "(" s' => parentheses_balance (S depth) s'
  | String ")" s' =>
      match depth with
      | O => false
      | S d => parentheses_balance d s'
      end
  | String _ s' => parentheses_balance depth s'
  end.

(** Does the placeholder start with a quantifier that cannot follow
    [\s*]? *)
Definition repeats_nothing (placeholder : string) : bool :=
  match placeholder with
  | String c _ => Ascii.eqb c "*" || Ascii.eqb c "+"
  | "" => false
  end.

(** What [new RegExp(`{{\\s*${placeholder}\\s*}}`, 'g')] gives.
    - [Literal name]: the placeholder has no syntax character, so the
      pattern is [{{], white space, the text [name], white space, [}}].
    - [Invalid]: the constructor throws a [SyntaxError]. This is the case
      when the placeholder starts with [*] or [+] (a quantifier right
      behind the one of [\s*], with nothing to repeat), and when it has no
      backslash and no opening bracket (so each parenthesis in it opens or
      closes a group) and its parentheses do not balance.
    - [Operators]: any other placeholder; it is read as a pattern with
      operators of its own, which this development does not interpret:
      the constructor may throw for it as well, or return a pattern that
      matches other texts than the placeholder. *)
Inductive PlaceholderRegExp :=
| Literal (name : string)
| Invalid
| Operators.

Definition newRegExp (placeholder : string) : PlaceholderRegExp :=
  if is_literal_text placeholder then Literal placeholder
  else if repeats_nothing placeholder
            || (opens_no_escape_or_class placeholder
                && negb (parentheses_balance 0 placeholder))
       then Invalid
       else Operators.

Fixpoint drop (n : nat) (s : string) : string :=
  match n, s with
  | S n', String _ s' => drop n' s'
  | _, _ => s
  end.

Fixpoint take (n : nat) (s : string) : string :=
  match n, s with
  | S n', String c s' => String c (take n' s')
  | _, _ => ""
  end.

(** Length of the white space a greedy [\s*] consumes at the start. *)
Fixpoint space_run (s : string) : nat :=
  match s with
  | String c s' => if JS.is_space c then S (space_run s') else O
  | "" => O
  end.

Fixpoint skip_spaces (s : string) : string :=
  match s with
  | String c s' => if JS.is_space c then skip_spaces s' else s
  | "" => ""
  end.

(** One attempt at [\s*name\s*}}] in which the first [\s*] takes exactly
    [k] characters: what follows the match. The second [\s*] needs no
    backtracking, since [}}] cannot start with white space. *)
Definition attempt (name : string) (k : nat) (s : string) : option string :=
  match JS.strip_prefix name (drop k s) with
  | Some s1 => JS.strip_prefix "}}" (skip_spaces s1)
  | None => None
  end.

(** Greedy [\s*] with backtracking: the longest run first. *)
Fixpoint backtrack (name : string) (k : nat) (s : string) : option string :=
  match attempt name k s with
  | Some after => Some after
  | None =>
      match k with
      | O => None
      | S k' => backtrack name k' s
      end
  end.

(** A match of the pattern at the very start of [s]: what follows it. *)
Definition match_placeholder (name s : string) : option string :=
  match JS.strip_prefix "{{" s with
  | Some s1 => backtrack name (space_run s1) s1
  | None => None
  end.

(** [s.replace(regexp, value)] with the [g] flag, for [Literal name]:
    left to right, each match replaced, the search resuming after it.
    [before] is the text already passed; [skip] counts the characters of
    the current match still to pass. *)
Fixpoint replace_scan (name value before : string) (skip : nat) (s : string)
  : string :=
  match s with
  | "" => ""
  | String c s' =>
      match skip with
      | S n => replace_scan name value (before +:+ String c "") n s'
      | O =>
          match match_placeholder name s with
          | Some after =>
              let matched :=
                take (String.length s - String.length after) s in
              JS.GetSubstitution value matched before after
              +:+ replace_scan name value (before +:+ String c "")
                    (String.length matched - 1) s'
          | None =>
              String c (replace_scan name value (before +:+ String c "") O s')
          end
      end
  end.

Definition replace_all (name value s : string) : string :=
  replace_scan name value "" O s.

(** What a call of [t] comes to. *)
Inductive Outcome :=
| Returns (text : string)
| Throws (error : Thrown)
| Uninterpreted.

(** [Object.keys(interpolations).forEach(...)]: the entries in the order
    of [Object.keys], each with its value [interpolations[placeholder]]. *)
Fixpoint interpolate (entries : list (string * string)) (translation : string)
  : Outcome :=
  match entries with
  | [] => Returns translation
  | (placeholder, value) :: rest =>
      match newRegExp placeholder with
      | Literal name => interpolate rest (replace_all name value translation)
      | Invalid => Throws SyntaxError
      | Operators => Uninterpreted
      end
  end.

(** The three assignments to [translation] before the interpolation. *)
Definition candidate (key : string) (w : World) : string :=
  let translation := getTranslation key (current w) w in
  let translation :=
    if negb (JS.truthy_opt translation)
         && negb (String.eqb (current w) defaultLanguage)
    then getTranslation key defaultLanguage w
    else translation in
  if negb (JS.truthy_opt translation) then key
  else the_string translation.

(** [t(key, interpolations?)]. After the final fallback [translation] is
    a string, so the test [typeof translation === 'string'] holds. *)
Definition t (key : string) (interpolations : option (list (string * string)))
    (w : World) : Outcome :=
  let translation := candidate key w in
  match interpolations with
  | Some entries => interpolate entries translation
  | None => Returns translation
  end.

(** ** Locale switcher *)

(** A call of [updateURL]: the engine and the browser after it, and what
    it threw if it did not return ([history.replaceState] is its only
    step that can throw, and nothing has changed when it does). *)
Definition updateURL_run (w : World) : World * option Thrown :=
  let currentPath := pathname (browser w) in
  let currentLangInPath := extractLanguageFromPath (browser w) in
  let newPath :=
    if JS.truthy_opt currentLangInPath
    then JS.replace currentPath
           ("/" +:+ the_string currentLangInPath) ("/" +:+ current w)
    else if negb (String.eqb (current w) defaultLanguage)
         then "/" +:+ current w +:+ currentPath
         else currentPath in
  if negb (String.eqb newPath currentPath)
  then match replaceState newPath (browser w) with
       | Some b => ({| i18n := i18n w; browser := b |}, None)
       | None => (w, Some SecurityError)
       end
  else (w, None).

(** The engine and the browser after a call of [updateURL], whether it
    returned or threw. *)
Definition updateURL (w : World) : World := fst (updateURL_run w).

(** What the call threw, [None] when it returned. *)
Definition updateURL_thrown (w : World) : option Thrown :=
  snd (updateURL_run w).

(** The value of the local variable [newPath] of [updateURL] at its
    last statement. *)
Definition updateURL_newPath (w : World) : string :=
  let currentPath := pathname (browser w) in
  let currentLangInPath := extractLanguageFromPath (browser w) in
  if JS.truthy_opt currentLangInPath
  then JS.replace currentPath
         ("/" +:+ the_string currentLangInPath) ("/" +:+ current w)
  else if negb (String.eqb (current w) defaultLanguage)
       then "/" +:+ current w +:+ currentPath
       else currentPath.

(** [updatePageDirection], without the two class toggles on [body]. *)
Definition updatePageDirection (w : World) : World :=
  match languageConfigs !! current w with
  | Some config =>
      let w :=
        set_isRTL (match direction config with rtl => true | ltr => false end)
          w in
      with_browser (set_document (direction config) (current w)) w
  | None => w
  end.

Definition dispatchLanguageChangeEvent (w : World) : World :=
  with_browser
    (dispatchEvent {| detail_language := current w;
                      detail_config := languageConfigs !! current w;
                      detail_isRTL := isRTL (i18n w) |}) w.

(** The local variables of a [changeLanguage] call suspended at its
    [await]. *)
Record Switch := {
  language_requested : string;
  previousLanguage : string
}.

(** [changeLanguage] up to its [await]: the guard, the assignment to
    [currentLanguage] and the request of the load. [None] when the call
    returns at the guard. *)
Definition changeLanguage_begin (language : string) (w : World)
  : World * option Switch :=
  if negb (isLanguageSupported language) || String.eqb language (current w)
  then (w, None)
  else
    let previous := current w in
    let w := set_currentLanguage language w in
    (load_request language w,
     Some {| language_requested := language; previousLanguage := previous |}).

(** The rest of the [try] block, given how the awaited load settled:
    the world, and what was thrown if anything was. [updatePageContent]
    rewrites text nodes through [t(key)] only and changes nothing
    recorded here. *)
Definition changeLanguage_try (s : Switch) (loaded : Settled) (w : World)
  : World * option Thrown :=
  match loaded with
  | Rejected error => (w, Some error)
  | Fulfilled =>
      match updateURL_run w with
      | (w, Some error) => (w, Some error)
      | (w, None) =>
          let w := updatePageDirection w in
          if storage_writable (browser w)
          then
            let w :=
              with_browser (setItem "sonar_language" (language_requested s))
                w in
            let w := dispatchLanguageChangeEvent w in
            (w, None)
          else (w, Some StorageError)
      end
  end.

(** [changeLanguage] from its [await] on, with its [catch]: the world and
    how the promise returned to the caller settles. *)
Definition changeLanguage_resume (s : Switch) (loaded : Settled) (w : World)
  : World * Settled :=
  match changeLanguage_try s loaded w with
  | (w, None) => (w, Fulfilled)
  | (w, Some _) =>
      let w := with_browser log_console w in
      (set_currentLanguage (previousLanguage s) w, Fulfilled)
  end.

(** A whole call of [changeLanguage], nothing else running in between. *)
Definition changeLanguage (language : string) (response : Response)
    (w : World) : World * Settled :=
  match changeLanguage_begin language w with
  | (w, None) => (w, Fulfilled)
  | (w, Some s) =>
      let (w, loaded) := load_settle language response w in
      changeLanguage_resume s loaded w
  end.

(** The load awaited by a suspended call settles and the call runs to
    its end. *)
Definition changeLanguage_finish (s : Switch) (response : Response)
    (w : World) : World :=
  let (w, loaded) := load_settle (language_requested s) response w in
  fst (changeLanguage_resume s loaded w).

(** [getLocalizedURL(path, language?)] *)
Definition getLocalizedURL (path : string) (language : option string)
    (w : World) : string :=
  let lang :=
    if JS.truthy_opt language then the_string language else current w in
  if String.eqb lang defaultLanguage then path
  else "/" +:+ lang +:+ path.

Definition notifications (w : World) : nat :=
  length (dispatched (browser w)).

(** ** The specification's reading of detection, resolution and
       interpolation, for comparison with the code *)

(** Detection, section 4.2 of the specification: the candidates in their
    order of precedence. *)
Definition base_subtag (tag : string) : string := JS.split_head "-" tag.

Definition path_candidate (b : Browser) : option string :=
  match head (JS.filter_Boolean (JS.split "/" (pathname b))) with
  | Some segment =>
      if (String.length segment =? 2)%nat then Some segment else None
  | None => None
  end.

Definition candidates (b : Browser) : list string :=
  option_list (search_lang b)
  ++ option_list (path_candidate b)
  ++ option_list (localStorage b !! "sonar_language")
  ++ [base_subtag (navigator_language b)]
  ++ map base_subtag (navigator_languages b).

(** "First match wins; otherwise the configured default." *)
Definition first_supported (codes : list string) : string :=
  default defaultLanguage (head (List.filter isLanguageSupported codes)).

(** A translation tree, section 3: a nested mapping from segments to
    string leaves or further trees. *)
Fixpoint tree_shaped (v : JSON) : bool :=
  match v with
  | JString _ => true
  | JObject properties => forallb (fun p => tree_shaped (snd p)) properties
  | _ => false
  end.

Definition is_tree (v : JSON) : bool :=
  match v with
  | JObject _ => tree_shaped v
  | _ => false
  end.

(** Resolution, section 4.4 step 1: every segment but the last resolves
    to a nested tree, the last one to a string leaf. *)
Fixpoint spec_walk (segments : list string) (tree : JSON) : option string :=
  match segments with
  | [] => None
  | k :: rest =>
      match tree with
      | JObject properties =>
          match assoc k properties, rest with
          | Some (JString leaf), [] => Some leaf
          | Some subtree, _ :: _ => spec_walk rest subtree
          | _, _ => None
          end
      | _ => None
      end
  end.

Definition spec_lookup (key language : string) (w : World) : option string :=
  match translations (i18n w) !! language with
  | Some tree => spec_walk (JS.split "." key) tree
  | None => None
  end.

(** A walk that ends in the empty string is of no use to [t]. *)
Definition usable (found : option string) : option string :=
  match found with
  | Some "" => None
  | _ => found
  end.

(** Steps 1 to 3 of section 4.4, the empty leaf counted as a failure. *)
Definition spec_resolve (key : string) (w : World) : string :=
  match usable (spec_lookup key (current w) w) with
  | Some text => text
  | None =>
      if String.eqb (current w) defaultLanguage then key
      else match usable (spec_lookup key defaultLanguage w) with
           | Some text => text
           | None => key
           end
  end.

(** Interpolation, section 4.4 step 4: a template is text interleaved
    with placeholders [{{ name }}], each with the white space around its
    name. *)
Inductive Piece :=
| Text (s : string)
| Hole (before_name name after_name : string).

Definition render_piece (p : Piece) : string :=
  match p with
  | Text s => s
  | Hole l name r => "{{" +:+ l +:+ name +:+ r +:+ "}}"
  end.

Fixpoint render (pieces : list Piece) : string :=
  match pieces with
  | [] => ""
  | p :: rest => render_piece p +:+ render rest
  end.

(** A placeholder whose name is a provided key becomes the value; any
    other piece stays as it is. *)
Definition fill (entries : list (string * string)) (p : Piece) : string :=
  match p with
  | Text s => s
  | Hole _ name _ =>
      match assoc name entries with
      | Some value => value
      | None => render_piece p
      end
  end.

(** One entry applied to a piece: the placeholders of that name become
    text. *)
Definition fill_one (name value : string) (p : Piece) : Piece :=
  match p with
  | Text _ => p
  | Hole _ name' _ => if String.eqb name' name then Text value else p
  end.

Fixpoint filled (entries : list (string * string)) (pieces : list Piece)
  : string :=
  match pieces with
  | [] => ""
  | p :: rest => fill entries p +:+ filled entries rest
  end.

(** Names: non-empty, without white space and without syntax characters.
    Text between placeholders: without an opening brace. Values: without
    a dollar and without an opening brace. *)
Definition is_name_char (c : ascii) : bool :=
  negb (is_syntax_character c) && negb (JS.is_space c).

Definition is_name (s : string) : bool :=
  JS.truthy s && all_chars is_name_char s.

Definition is_blank (s : string) : bool := all_chars JS.is_space s.

Definition no_open_brace (s : string) : bool :=
  all_chars (fun c => negb (Ascii.eqb c "{")) s.

Definition is_plain_value (s : string) : bool :=
  all_chars (fun c => negb (Ascii.eqb c "$") && negb (Ascii.eqb c "{")) s.

Definition well_formed (p : Piece) : bool :=
  match p with
  | Text s => no_open_brace s
  | Hole l name r => is_blank l && is_name name && is_blank r
  end.

Definition plain_entry (entry : string * string) : bool :=
  is_name (fst entry) && is_plain_value (snd entry).

(** ** Worlds used in the examples *)

Definition example_browser : Browser :=
  {| pathname := "/fr/about"; search := "?lang=es"; hash := "";
     search_lang := Some "es";
     localStorage := {["sonar_language" := "de"]};
     storage_writable := true;
     navigator_language := "ja-JP"; navigator_languages := ["ja-JP"; "ja"];
     document_dir := ltr; document_lang := "en";
     fetched := []; replaced := []; dispatched := []; logged := 0 |}.

(** A page at [path] with nothing stored and an English browser. *)
Definition page (path : string) : Browser :=
  {| pathname := path; search := ""; hash := "";
     search_lang := None; localStorage := ∅; storage_writable := true;
     navigator_language := "en-US"; navigator_languages := ["en-US"; "en"];
     document_dir := ltr; document_lang := "en";
     fetched := []; replaced := []; dispatched := []; logged := 0 |}.

(** The engine with [language] active and the given trees loaded. *)
Definition engine (language : string) (trees : gmap string JSON)
    (b : Browser) : World :=
  {| i18n := {| currentLanguage := language; translations := trees;
                isRTL := false; initialized := true |};
     browser := b |}.

Definition english_only : JSON :=
  JObject [("footer", JObject [("onlyInEnglish", JString "Only in English")]);
           ("greeting", JString "Hello {{name}}");
           ("price", JString "Price: {{amount}}");
           ("untranslated", JString "")].

Definition spanish : JSON :=
  JObject [("footer", JObject [("privacy", JString "Privacidad")]);
           ("greeting", JString "Hola {{ name }}, {{unknown}}");
           ("chain", JString "{{a}}")].

Definition spanish_world : World :=
  engine "es" {["es" := spanish; "en" := english_only]} (page "/es/about").

Definition english_world : World :=
  engine "en" {["en" := english_only]} (page "/about").




(** ** Registry queries *)

(** A [Map] as the list of its entries in insertion order:
    [map.set(k, v)] overwrites the entry of [k] in place or appends one. *)
Fixpoint Map_set {A} (k : string) (v : A) (entries : list (string * A))
  : list (string * A) :=
  match entries with
  | [] => [(k, v)]
  | (k', v') :: rest =>
      if String.eqb k k' then (k, v) :: rest
      else (k', v') :: Map_set k v rest
  end.

(** [languageConfigs] with its iteration order, as [initializeLanguages]
    fills it. *)
Definition languageConfigs_entries : list (string * LanguageConfig) :=
  foldl (fun entries lang => Map_set (code lang) lang entries) [] languages.

(** [Array.from(this.languageConfigs.values()).filter(lang => lang.enabled)] *)
Definition getSupportedLanguages : list LanguageConfig :=
  List.filter enabled (map snd languageConfigs_entries).

Definition getCurrentLanguage (w : World) : string := current w.

Definition getCurrentLanguageConfig (w : World) : option LanguageConfig :=
  languageConfigs !! current w.

(** ** Paths *)

Definition is_slash (c : ascii) : bool := Ascii.eqb c "/".

(** A path that starts with one slash and not with two, as the path of a
    page normally is. [updateURL] keeps such a path such, so that
    [history.replaceState] never refuses what it hands over. *)
Definition rooted (path : string) : bool :=
  match path with
  | String c rest =>
      is_slash c
      && match rest with
         | String d _ => negb (is_slash d)
         | "" => true
         end
  | "" => false
  end.

(** ** Loading at start-up *)

Definition set_initialized (flag : bool) (w : World) : World :=
  {| i18n := {| currentLanguage := currentLanguage (i18n w);
                translations := translations (i18n w);
                isRTL := isRTL (i18n w);
                initialized := flag |};
     browser := browser w |}.

(** An [async] method of the class suspended at an [await] of
    [loadLanguageTranslations], that is, waiting for one [fetch]:
    [changeLanguage] with its local variables, or [loadTranslations] at its
    first load (of the language that was active when it started) or at its
    second one (of the default language). *)
Inductive Task :=
| Switching (s : Switch)
| LoadingActive (language : string)
| LoadingDefault.

(** [loadTranslations] up to its first [await]. *)
Definition loadTranslations_begin (w : World) : World * Task :=
  (load_request (current w) w, LoadingActive (current w)).

(** The end of its [try] block, after the loads. *)
Definition loadTranslations_end (w : World) : World :=
  let w := updatePageDirection w in
  let w := set_initialized true w in
  dispatchLanguageChangeEvent w.

(** Its [catch] block, which starts over with the default language. *)
Definition loadTranslations_catch (w : World) : World * option Task :=
  let w := with_browser log_console w in
  if negb (String.eqb (current w) defaultLanguage)
  then
    let (w, task) :=
      loadTranslations_begin (set_currentLanguage defaultLanguage w) in
    (w, Some task)
  else (w, None).

(** A suspended method goes on when its [fetch] is answered: the world
    after it has run to its next [await] or to its end, and the task it
    is then suspended in, if any. *)
Definition resume (task : Task) (response : Response) (w : World)
  : World * option Task :=
  match task with
  | Switching s => (changeLanguage_finish s response w, None)
  | LoadingActive language =>
      let (w, loaded) := load_settle language response w in
      match loaded with
      | Rejected _ => loadTranslations_catch w
      | Fulfilled =>
          if negb (String.eqb (current w) defaultLanguage)
          then (load_request defaultLanguage w, Some LoadingDefault)
          else (loadTranslations_end w, None)
      end
  | LoadingDefault =>
      let (w, loaded) := load_settle defaultLanguage response w in
      match loaded with
      | Rejected _ => loadTranslations_catch w
      | Fulfilled => (loadTranslations_end w, None)
      end
  end.

(** A whole run of [loadTranslations], nothing else running in between;
    [second] answers the load of the default language, when there is
    one. *)
Definition loadTranslations (first second : Response) (w : World) : World :=
  let (w, task) := loadTranslations_begin w in
  match resume task first w with
  | (w, Some task') => fst (resume task' second w)
  | (w, None) => w
  end.

(** [initialize] up to its [await]. What follows the [await]
    ([updatePageContent], [initializeLanguageSwitcher], [console.log])
    changes nothing recorded here. *)
Definition initialize_begin (w : World) : World * option Task :=
  if initialized (i18n w) then (w, None)
  else let (w, task) := loadTranslations_begin w in (w, Some task).

(** A whole run of [initialize]. *)
Definition initialize (first second : Response) (w : World) : World :=
  if initialized (i18n w) then w else loadTranslations first second w.

(** [new SonarI18n()]: the field initialisers, [initializeLanguages],
    [detectLanguage] and the start of [loadTranslations]. *)
Definition construct (b : Browser) : World * Task :=
  loadTranslations_begin
    {| i18n := {| currentLanguage := detectLanguage b;
                  translations := ∅;
                  isRTL := false;
                  initialized := false |};
       browser := b |}.

(** *** The engine over time *)

(** The instance together with its suspended methods. *)
Record Running := {
  world : World;
  tasks : list Task
}.

(** What can happen next: a caller invokes [changeLanguage] or
    [initialize], or the [fetch] of the [i]-th suspended method is
    answered. *)
Inductive Happening :=
| Calls_changeLanguage (language : string)
| Calls_initialize
| Answers (i : nat) (response : Response).

Definition step (r : Running) (h : Happening) : Running :=
  match h with
  | Calls_changeLanguage language =>
      let (w, s) := changeLanguage_begin language (world r) in
      {| world := w; tasks := tasks r ++ option_list (Switching <$> s) |}
  | Calls_initialize =>
      let (w, task) := initialize_begin (world r) in
      {| world := w; tasks := tasks r ++ option_list task |}
  | Answers i response =>
      match tasks r !! i with
      | Some task =>
          let (w, next) := resume task response (world r) in
          {| world := w; tasks := delete i (tasks r) ++ option_list next |}
      | None => r
      end
  end.

Definition run (happenings : list Happening) (r : Running) : Running :=
  foldl step r happenings.

(** The instance right after its construction in a browser. *)
Definition start (b : Browser) : Running :=
  let (w, task) := construct b in {| world := w; tasks := [task] |}.

(** What stays true of the engine whatever happens. *)
Definition task_sound (task : Task) : Prop :=
  match task with
  | Switching s =>
      isLanguageSupported (previousLanguage s) = true
      /\ isLanguageSupported (language_requested s) = true
  | LoadingActive language => isLanguageSupported language = true
  | LoadingDefault => True
  end.

Definition url_sound (url : string) : Prop :=
  exists language,
    isLanguageSupported language = true /\ url = translationsURL language.

Definition event_sound (event : LanguageChanged) : Prop :=
  isLanguageSupported (detail_language event) = true
  /\ detail_config event = languageConfigs !! detail_language event
  /\ detail_isRTL event = false.

Record world_sound (w : World) : Prop := {
  sound_current : isLanguageSupported (current w) = true;
  sound_pathname : rooted (pathname (browser w)) = true;
  sound_isRTL : isRTL (i18n w) = false;
  sound_translations :
    forall language,
      is_Some (translations (i18n w) !! language) ->
      isLanguageSupported language = true;
  sound_fetched : Forall url_sound (fetched (browser w));
  sound_dispatched : Forall event_sound (dispatched (browser w))
}.

Definition sound (r : Running) : Prop :=
  world_sound (world r) /\ Forall task_sound (tasks r).

(** ** Relative time *)

Inductive TimeUnit := year | month | week | day | hour | minute.

(** The [timeUnits] array literal. *)
Definition timeUnits : list (TimeUnit * Z) :=
  [(year, 31536000); (month, 2592000); (week, 604800);
   (day, 86400); (hour, 3600); (minute, 60)]%Z.

(** The [for (const { unit, seconds } of timeUnits)] loop: the interval
    and unit it returns with, [None] when it ends without returning.
    [Math.floor(diffInSeconds / seconds)] is the integer quotient rounded
    down, the operands being integers below 2^53 in magnitude. *)
Fixpoint pick_unit (diffInSeconds : Z) (units : list (TimeUnit * Z))
  : option (Z * TimeUnit) :=
  match units with
  | [] => None
  | (unit, seconds) :: rest =>
      let interval := (diffInSeconds / seconds)%Z in
      if (1 <=? interval)%Z then Some (interval, unit)
      else pick_unit diffInSeconds rest
  end.

(** What [getRelativeTime] returns: the text
    [new Intl.RelativeTimeFormat(locale, { numeric: 'auto' }).format(value,
    unit)], which is left to the platform, or the outcome of the call of
    [t]. *)
Inductive RelativeTime :=
| Formatted (locale : string) (value : Z) (unit : TimeUnit)
| Said (outcome : Outcome).

(** [x || fallback] on what a call of [t] comes to. *)
Definition or_else (outcome : Outcome) (fallback : string) : Outcome :=
  match outcome with
  | Returns text => Returns (if JS.truthy text then text else fallback)
  | _ => outcome
  end.

(** [getRelativeTime(date)] at the time [now]; both are time values in
    milliseconds, [None] for an invalid date, whose time value is [NaN]:
    every comparison with it fails. *)
Definition getRelativeTime (now : Z) (date : option Z) (w : World)
  : RelativeTime :=
  let just_now := Said (or_else (t "common.just_now" None w) "just now") in
  match date with
  | None => just_now
  | Some time =>
      let diffInSeconds := ((now - time) / 1000)%Z in
      match pick_unit diffInSeconds timeUnits with
      | Some (interval, unit) => Formatted (current w) (- interval) unit
      | None => just_now
      end
  end.

(** Seconds in a unit, as in [timeUnits]. *)
Definition seconds_in (unit : TimeUnit) : Z :=
  match unit with
  | year => 31536000 | month => 2592000 | week => 604800
  | day => 86400 | hour => 3600 | minute => 60
  end%Z.

(** ** Templates without placeholders *)

(** Does [{{] occur in the text? *)
Fixpoint has_double_brace (s : string) : bool :=
  match s with
  | String c ((String d _) as s') =>
      (Ascii.eqb c "{" && Ascii.eqb d "{") || has_double_brace s'
  | _ => false
  end.

(** ** The text marquee *)

(** The children [createTextMarquee] appends to the content element: a
    [span.marquee-item] with the item as its text, or a
    [span.marquee-separator] with a bullet as its text. *)
Inductive Span :=
| marquee_item (textContent : string)
| marquee_separator.

(** The [items.forEach((item, index) => ...)] of [createTextMarquee],
    from [index] on; [n] is [items.length]. *)
Fixpoint marquee_spans (index n : nat) (items : list string) : list Span :=
  match items with
  | [] => []
  | item :: rest =>
      marquee_item item
      :: (if (Z.of_nat index <? Z.of_nat n - 1)%Z
          then [marquee_separator] else [])
      ++ marquee_spans (S index) n rest
  end.

Definition createTextMarquee_children (items : list string) : list Span :=
  marquee_spans 0 (length items) items.

(** The text of an item span; a separator has none of interest. *)
Definition span_text (span : Span) : option string :=
  match span with
  | marquee_item text => Some text
  | marquee_separator => None
  end.

(** Items with a separator between any two neighbours. *)
Fixpoint separated (items : list string) : list Span :=
  match items with
  | [] => []
  | [item] => [marquee_item item]
  | item :: rest => marquee_item item :: marquee_separator :: separated rest
  end.

(** ** The content cache of [SonarCMS] *)

Module CMS.

(** The instance: its [cache], with what it has fetched and logged. *)
Record State := {
  cache : gmap string JSON;
  requested : list string;
  errors : nat
}.

(** [initializeCache] *)
Definition initializeCache (c : State) : State :=
  {| cache := <["blog" := JNull]>
                (<["team" := JNull]> (<["projects" := JNull]> (cache c)));
     requested := requested c;
     errors := errors c |}.

(** [new SonarCMS()] *)
Definition construct : State :=
  initializeCache {| cache := ∅; requested := []; errors := 0 |}.

(** [clearCache] *)
Definition clearCache (c : State) : State :=
  initializeCache {| cache := ∅; requested := requested c;
                     errors := errors c |}.

(** [this.cache.get(key)] when it is truthy. *)
Definition cached (key : string) (c : State) : option JSON :=
  match cache c !! key with
  | Some data => if truthy_value data then Some data else None
  | None => None
  end.

(** The common shape of [loadProjects], [loadTeam] and [loadBlog]: the
    entry of [key] when it is truthy; otherwise a fetch of [url], whose
    parsed answer is stored and returned, or, when anything in the [try]
    block throws, [fallback] after a [console.error]. [response] is what
    the server answers if it is asked. *)
Definition load (key url : string) (fallback : JSON) (response : Response)
    (c : State) : JSON * State :=
  match cached key c with
  | Some data => (data, c)
  | None =>
      let asked := requested c ++ [url] in
      match load_try response with
      | inr data =>
          (data, {| cache := <[key := data]> (cache c);
                    requested := asked; errors := errors c |})
      | inl _ =>
          (fallback, {| cache := cache c; requested := asked;
                        errors := S (errors c) |})
      end
  end.

Definition no_projects : JSON :=
  JObject [("projects", JArray []); ("categories", JArray []);
           ("services", JArray []); ("filters", JObject [])].

Definition no_team : JSON :=
  JObject [("team_members", JArray []); ("departments", JArray []);
           ("levels", JArray []); ("specialties", JArray [])].

Definition no_blog : JSON :=
  JObject [("blog_posts", JArray []); ("categories", JArray []);
           ("tags", JArray []); ("authors", JArray []);
           ("meta", JObject [])].

Definition loadProjects : Response -> State -> JSON * State :=
  load "projects" "/src/data/projects.json" no_projects.

Definition loadTeam : Response -> State -> JSON * State :=
  load "team" "/src/data/team.json" no_team.

Definition loadBlog : Response -> State -> JSON * State :=
  load "blog" "/src/data/blog.json" no_blog.

(** The fields of [BlogPost] that [calculateRelatedScore] reads. *)
Record BlogPost := {
  category : string;
  author_id : string;
  tags : list string
}.

(** [tags.includes(tag)] *)
Definition includes (tag : string) (tags : list string) : bool :=
  existsb (String.eqb tag) tags.

Definition calculateRelatedScore (post1 post2 : BlogPost) : nat :=
  let score := 0 in
  let score :=
    if String.eqb (category post1) (category post2) then score + 3
    else score in
  let sharedTags :=
    List.filter (fun tag => includes tag (tags post2)) (tags post1) in
  let score := score + length sharedTags * 2 in
  let score :=
    if String.eqb (author_id post1) (author_id post2) then score + 1
    else score in
  score.

End CMS.

(** * Properties *)

(** ** Registry *)

Lemma supported_codes language :
  isLanguageSupported language = true ->
  language ∈ ["en"; "es"; "fr"; "de"; "ja"; "zh"].
Proof.
  unfold isLanguageSupported, languageConfigs, initializeLanguages.
  cbn [foldl languages code].
  rewrite !lookup_insert, lookup_empty.
  repeat case_decide; subst; cbn; try discriminate; intros _; set_solver.
Qed.

Lemma supported_truthy language :
  isLanguageSupported language = true -> JS.truthy language = true.
Proof.
  intros H%supported_codes.
  repeat (apply elem_of_cons in H as [-> | H]; [reflexivity |]).
  by apply elem_of_nil in H.
Qed.

Lemma supported_length language :
  isLanguageSupported language = true -> String.length language = 2.
Proof.
  intros H%supported_codes.
  repeat (apply elem_of_cons in H as [-> | H]; [reflexivity |]).
  by apply elem_of_nil in H.
Qed.

Lemma supported_value_Some language :
  supported_value (Some language) = isLanguageSupported language.
Proof.
  unfold supported_value. cbn.
  destruct (isLanguageSupported language) eqn:E.
  - by rewrite (supported_truthy _ E).
  - apply andb_false_r.
Qed.

Lemma supported_value_None : supported_value None = false.
Proof. reflexivity. Qed.

(** ** Detector *)

Lemma scan_languages_filter langs :
  scan_languages langs
  = head (List.filter isLanguageSupported (map base_subtag langs)).
Proof.
  induction langs as [| lang rest IH]; [reflexivity |].
  cbn. fold (base_subtag lang).
  destruct (isLanguageSupported (base_subtag lang)); [reflexivity | exact IH].
Qed.

Lemma extractLanguageFromPath_candidate b :
  extractLanguageFromPath b
  = match path_candidate b with
    | Some segment =>
        if isLanguageSupported segment then Some segment else None
    | None => None
    end.
Proof.
  unfold extractLanguageFromPath, path_candidate.
  destruct (JS.filter_Boolean _) as [| segment ?]; [reflexivity |].
  cbn. destruct (String.length segment =? 2); reflexivity.
Qed.

Lemma extractLanguageFromPath_supported b language :
  extractLanguageFromPath b = Some language ->
  isLanguageSupported language = true.
Proof.
  rewrite extractLanguageFromPath_candidate.
  destruct (path_candidate b) as [segment |]; [| discriminate].
  destruct (isLanguageSupported segment) eqn:E; [| discriminate].
  by intros [= <-].
Qed.

Lemma filter_candidate (candidate : option string) codes :
  head (List.filter isLanguageSupported (option_list candidate ++ codes))
  = if supported_value candidate then Some (the_string candidate)
    else head (List.filter isLanguageSupported codes).
Proof.
  destruct candidate as [c |]; [| reflexivity].
  rewrite supported_value_Some. cbn.
  destruct (isLanguageSupported c); reflexivity.
Qed.

Lemma path_stage b :
  supported_value (extractLanguageFromPath b)
  = supported_value (path_candidate b)
  /\ (supported_value (path_candidate b) = true ->
      the_string (extractLanguageFromPath b) = the_string (path_candidate b)).
Proof.
  rewrite extractLanguageFromPath_candidate.
  destruct (path_candidate b) as [segment |]; [| done].
  rewrite supported_value_Some.
  destruct (isLanguageSupported segment) eqn:E.
  - by rewrite supported_value_Some, E.
  - done.
Qed.

Lemma detectLanguage_first_supported b :
  detectLanguage b = first_supported (candidates b).
Proof.
  unfold detectLanguage, first_supported, candidates.
  rewrite !filter_candidate.
  destruct (supported_value (search_lang b)); [reflexivity |].
  destruct (path_stage b) as [-> Hpath].
  destruct (supported_value (path_candidate b)); [by rewrite Hpath |].
  destruct (supported_value (localStorage b !! "sonar_language"));
    [reflexivity |].
  cbn [app List.filter]. fold (base_subtag (navigator_language b)).
  destruct (isLanguageSupported (base_subtag (navigator_language b)));
    [reflexivity |].
  rewrite scan_languages_filter.
  by destruct (head _).
Qed.

Lemma first_supported_supported codes :
  isLanguageSupported (first_supported codes) = true.
Proof.
  unfold first_supported.
  induction codes as [| c rest IH]; [reflexivity |].
  cbn. destruct (isLanguageSupported c) eqn:E; [exact E | exact IH].
Qed.

(** C1. Locale detection returns the first supported candidate in the
    order query parameter, path segment, persisted preference, primary
    browser language (base subtag), the browser's language list (base
    subtags), and the default language when there is none; its result is
    always a supported code; and a supported query parameter wins over
    everything else. *)
Theorem detectLanguage_precedence (b : Browser) :
  detectLanguage b = first_supported (candidates b)
  /\ isLanguageSupported (detectLanguage b) = true
  /\ (forall q, search_lang b = Some q -> isLanguageSupported q = true ->
       detectLanguage b = q).
Proof.
  split; [apply detectLanguage_first_supported |].
  split.
  - rewrite detectLanguage_first_supported. apply first_supported_supported.
  - intros q Hq Hsupported. unfold detectLanguage.
    by rewrite Hq, supported_value_Some, Hsupported.
Qed.

Lemma detectLanguage_precedence_example :
  detectLanguage example_browser = "es".
Proof.
  apply (detectLanguage_precedence example_browser); reflexivity.
Defined.

(** ** Resolver *)

Lemma split_not_nil sep s : JS.split sep s <> [].
Proof.
  destruct s as [| c s]; cbn; [done |].
  destruct (Ascii.eqb c sep); [done |].
  by destruct (JS.split sep s).
Qed.

Lemma tree_shaped_assoc k properties v :
  tree_shaped (JObject properties) = true ->
  assoc k properties = Some v ->
  tree_shaped v = true.
Proof.
  cbn [tree_shaped].
  induction properties as [| [k' v'] rest IH]; cbn; [done |].
  intros [Hv' Hrest]%andb_prop.
  destruct (String.eqb k k'); [by intros [= <-] | by apply IH].
Qed.

Lemma walk_spec_walk keys tree :
  keys <> [] ->
  tree_shaped tree = true ->
  match walk keys tree with Some (JString s) => Some s | _ => None end
  = spec_walk keys tree.
Proof.
  revert tree.
  induction keys as [| k rest IH]; [done |].
  intros tree _ Htree.
  destruct tree as [| | | leaf | |properties]; try discriminate Htree.
  { cbn [walk is_object_type typeof]. by rewrite andb_false_r. }
  cbn [walk spec_walk truthy_value is_object_type typeof andb property].
  destruct (assoc k properties) as [next |] eqn:Hk; [| reflexivity].
  pose proof (tree_shaped_assoc _ _ _ Htree Hk) as Hnext.
  destruct rest as [| k' rest'].
  - cbn. destruct next; try reflexivity; discriminate Hnext.
  - rewrite IH by done.
    destruct next; try reflexivity; discriminate Hnext.
Qed.

Lemma getTranslation_spec_lookup key language w :
  from_option is_tree true (translations (i18n w) !! language) = true ->
  getTranslation key language w = spec_lookup key language w.
Proof.
  unfold getTranslation, spec_lookup.
  destruct (translations (i18n w) !! language) as [tree |]; [| reflexivity].
  cbn [from_option]. intros Htree.
  destruct tree; try discriminate Htree.
  cbn [truthy_value negb].
  apply walk_spec_walk; [apply split_not_nil | exact Htree].
Qed.

Lemma candidate_usable key w :
  candidate key w
  = match usable (getTranslation key (current w) w) with
    | Some text => text
    | None =>
        if String.eqb (current w) defaultLanguage then key
        else match usable (getTranslation key defaultLanguage w) with
             | Some text => text
             | None => key
             end
    end.
Proof.
  unfold candidate.
  destruct (getTranslation key (current w) w) as [[| c s] |];
    cbn [JS.truthy_opt JS.truthy negb andb usable the_string default];
    try reflexivity;
    destruct (String.eqb (current w) defaultLanguage);
    cbn [negb]; try reflexivity;
    destruct (getTranslation key defaultLanguage w) as [[| c' s'] |];
    reflexivity.
Qed.

(** C2, amended. With translation trees loaded, [t(key)] returns the
    string at the dotted key in the active language's tree; when that walk
    fails (missing path, non-string leaf) or ends in the empty string, and
    the active language is not the default one, the string at the key in the
    default language's tree; and when that fails or is empty too, the key
    itself. *)
Theorem t_fallback_chain (key : string) (w : World) :
  from_option is_tree true (translations (i18n w) !! current w) = true ->
  from_option is_tree true (translations (i18n w) !! defaultLanguage) = true ->
  t key None w = Returns (spec_resolve key w).
Proof.
  intros Hactive Hdefault.
  unfold t, spec_resolve. rewrite candidate_usable.
  by rewrite !getTranslation_spec_lookup.
Qed.

Lemma t_fallback_chain_example :
  t "footer.onlyInEnglish" None spanish_world = Returns "Only in English"
  /\ t "a.b.missing" None spanish_world = Returns "a.b.missing".
Proof.
  split.
  - rewrite (t_fallback_chain "footer.onlyInEnglish" spanish_world);
      reflexivity.
  - rewrite (t_fallback_chain "a.b.missing" spanish_world); reflexivity.
Defined.

(** C2 as stated fails on an empty leaf: the key is found only in the
    default tree, as a string, yet [t] returns the key. *)
Lemma t_empty_leaf_returns_key :
  spec_lookup "untranslated" "es" spanish_world = None
  /\ current spanish_world <> defaultLanguage
  /\ spec_lookup "untranslated" defaultLanguage spanish_world = Some ""
  /\ t "untranslated" None spanish_world = Returns "untranslated"
  /\ t "untranslated" None spanish_world <> Returns "".
Proof.
  repeat split; try reflexivity; discriminate.
Qed.

(** ** Translation store *)

Lemma load_settle_fulfilled language response w :
  snd (load_settle language response w) = Fulfilled.
Proof. unfold load_settle. by destruct (load_try response). Qed.

Lemma load_settle_fetched language response w :
  fetched (browser (fst (load_settle language response w)))
  = fetched (browser w).
Proof. unfold load_settle. by destruct (load_try response). Qed.

Lemma load_settle_current language response w :
  current (fst (load_settle language response w)) = current w.
Proof. unfold load_settle. by destruct (load_try response). Qed.

Lemma load_settle_translations language response w :
  translations (i18n (fst (load_settle language response w)))
  = <[language := stored language response]> (translations (i18n w)).
Proof. unfold load_settle, stored. by destruct (load_try response). Qed.

Lemma fetch_count_load_request language w :
  fetch_count (translationsURL language) (load_request language w)
  = S (fetch_count (translationsURL language) w).
Proof.
  unfold fetch_count, load_request. cbn.
  rewrite List.filter_app, length_app. cbn.
  rewrite String.eqb_refl. cbn. lia.
Qed.

Lemma fetch_count_load language response w :
  fetch_count (translationsURL language)
    (fst (loadLanguageTranslations language response w))
  = S (fetch_count (translationsURL language) w).
Proof.
  unfold loadLanguageTranslations, fetch_count.
  rewrite load_settle_fetched. apply fetch_count_load_request.
Qed.

Lemma load_translations language response w :
  translations (i18n (fst (loadLanguageTranslations language response w)))
  = <[language := stored language response]> (translations (i18n w)).
Proof. unfold loadLanguageTranslations. by rewrite load_settle_translations. Qed.

Lemma stored_parsed language tree :
  stored language (Responded true (Parsed tree)) = tree.
Proof. reflexivity. Qed.

Lemma stored_failed language response :
  failed response = true ->
  stored language response = getInlineTranslations language.
Proof. by destruct response as [| [] []]. Qed.

(** C3, amended. Every call of the load, for a supported code, fetches
    the file of the code and overwrites the tree stored for it, whatever
    was stored before: with the tree the server delivered, or with the
    built-in table when the fetch failed; the trees of the other codes
    stay as they are. So two calls for a code fetch its file twice, and
    when the server answers both the same way the second call leaves the
    stored trees as the first one left them. *)
Theorem load_twice_same_answer
    (language : string) (first second : Response) (w : World) :
  isLanguageSupported language = true ->
  let url := translationsURL language in
  let w1 := fst (loadLanguageTranslations language first w) in
  let w2 := fst (loadLanguageTranslations language second w1) in
  fetch_count url w1 = S (fetch_count url w)
  /\ fetch_count url w2 = S (S (fetch_count url w))
  /\ (forall tree,
        second = Responded true (Parsed tree) ->
        translations (i18n w2) !! language = Some tree)
  /\ (failed second = true ->
      translations (i18n w2) !! language
      = Some (getInlineTranslations language))
  /\ (forall other,
        other <> language ->
        translations (i18n w2) !! other = translations (i18n w) !! other)
  /\ (first = second -> translations (i18n w2) = translations (i18n w1)).
Proof.
  intros _. cbn zeta. rewrite !fetch_count_load, !load_translations.
  split_and!; try done.
  - intros tree ->. by rewrite lookup_insert_eq, stored_parsed.
  - intros Hfailed. by rewrite lookup_insert_eq, stored_failed.
  - intros other Hother. by rewrite !lookup_insert_ne.
  - intros ->. apply insert_insert_eq.
Qed.

Lemma load_twice_same_answer_example :
  translations
    (i18n (fst (loadLanguageTranslations "es" (Responded true (Parsed spanish))
                  (fst (loadLanguageTranslations "es" NoResponse
                          english_world)))))
    !! "es" = Some spanish.
Proof.
  destruct (load_twice_same_answer "es" NoResponse
              (Responded true (Parsed spanish)) english_world eq_refl)
    as (_ & _ & Hdelivered & _).
  exact (Hdelivered spanish eq_refl).
Defined.

(** C3 as stated fails: the second load of a code fetches again, and
    when the server has stopped answering it replaces the stored tree. *)
Lemma load_twice_fetches_twice :
  let url := translationsURL "es" in
  let answer := Responded true (Parsed spanish) in
  let w1 := fst (loadLanguageTranslations "es" answer english_world) in
  let w2 := fst (loadLanguageTranslations "es" answer w1) in
  let w2' := fst (loadLanguageTranslations "es" NoResponse w1) in
  fetch_count url english_world = 0
  /\ fetch_count url w2 = 2
  /\ ~ fetch_count url w2 <= 1
  /\ translations (i18n w1) !! "es" = Some spanish
  /\ translations (i18n w2') !! "es" = Some inline_es
  /\ spanish <> inline_es.
Proof.
  cbn zeta. repeat split; try reflexivity.
  - rewrite !fetch_count_load. cbn. lia.
  - discriminate.
Qed.

Lemma getInlineTranslations_built_in language :
  getInlineTranslations language = default inline_en (built_in language).
Proof.
  unfold getInlineTranslations, built_in, inline_tables. cbn [assoc].
  repeat (destruct (String.eqb language _); [reflexivity |]).
  reflexivity.
Qed.

Lemma built_in_not_empty language : built_in language <> Some (JObject []).
Proof.
  unfold built_in, inline_tables. cbn [assoc].
  repeat (destruct (String.eqb language _); [discriminate |]).
  discriminate.
Qed.

(** C5, amended. When the fetch fails, or answers with a status that is
    not OK, or with a body that is not JSON, the load of a supported code
    stores the built-in table of that code if there is one and the built-in
    English table otherwise (never an empty tree), and it does not raise:
    its promise is fulfilled. *)
Theorem load_failure_falls_back
    (language : string) (response : Response) (w : World) :
  isLanguageSupported language = true ->
  failed response = true ->
  let result := loadLanguageTranslations language response w in
  snd result = Fulfilled
  /\ translations (i18n (fst result)) !! language
     = Some (default inline_en (built_in language))
  /\ translations (i18n (fst result)) !! language <> Some (JObject []).
Proof.
  intros _ Hfailed result. subst result.
  rewrite load_translations, lookup_insert_eq.
  unfold loadLanguageTranslations. rewrite load_settle_fulfilled.
  assert (stored language response = default inline_en (built_in language))
    as ->.
  { unfold stored.
    destruct response as [| [] []]; try discriminate Hfailed;
      apply getInlineTranslations_built_in. }
  split; [reflexivity |]. split; [reflexivity |].
  pose proof (built_in_not_empty language) as Hne.
  destruct (built_in language); cbn; [congruence | discriminate].
Qed.

Lemma load_failure_falls_back_example :
  translations
    (i18n (fst (loadLanguageTranslations "fr" (Responded true NotJSON)
                  english_world))) !! "fr"
  = Some inline_fr.
Proof.
  apply (load_failure_falls_back "fr" (Responded true NotJSON) english_world);
    reflexivity.
Defined.

(** C5 as stated fails for a code without a built-in table: the store
    then holds the English table, not an empty tree. *)
Lemma load_failure_without_table_stores_english :
  built_in "de" = None
  /\ failed NoResponse = true
  /\ translations
       (i18n (fst (loadLanguageTranslations "de" NoResponse english_world)))
       !! "de" = Some inline_en
  /\ inline_en <> JObject [].
Proof. repeat split; try reflexivity. discriminate. Qed.

(** ** Paths *)

Lemma split_head_rest sep s piece pieces :
  JS.split sep s = piece :: pieces ->
  exists rest,
    s = piece +:+ rest /\ (rest = "" \/ exists tail, rest = String sep tail).
Proof.
  revert piece pieces.
  induction s as [| c s IH]; intros piece pieces; cbn [JS.split].
  - intros [= <- <-]. exists "". by split; [| left].
  - destruct (Ascii.eqb_spec c sep) as [-> | Hc].
    + intros [= <- <-]. exists (String sep s). split; [done |].
      right. by exists s.
    + destruct (JS.split sep s) as [| piece' pieces'] eqn:Hsplit.
      * by destruct (split_not_nil sep s).
      * intros [= <- <-].
        destruct (IH _ _ eq_refl) as (rest & -> & Hrest).
        by exists rest.
Qed.

(** The first non-empty segment of a path, with what is around it. *)
Lemma first_segment_shape path segment segments :
  JS.filter_Boolean (JS.split "/" path) = segment :: segments ->
  exists slashes rest,
    path = slashes +:+ segment +:+ rest
    /\ all_chars is_slash slashes = true
    /\ (rest = "" \/ exists tail, rest = "/" +:+ tail).
Proof.
  induction path as [| c path IH]; cbn [JS.split]; [done |].
  destruct (Ascii.eqb_spec c "/") as [-> | Hc].
  - cbn. intros (slashes & rest & -> & Hslashes & Hrest)%IH.
    exists (String "/" slashes), rest. by repeat split.
  - destruct (JS.split "/" path) as [| piece pieces] eqn:Hsplit.
    + by destruct (split_not_nil "/" path).
    + cbn. intros [= <- <-].
      destruct (split_head_rest _ _ _ _ Hsplit) as (rest & -> & Hrest).
      exists "", rest. by repeat split.
Qed.

Ltac each_code H :=
  apply supported_codes in H;
  repeat (apply elem_of_cons in H as [-> | H]);
  [.. | by apply elem_of_nil in H].

Lemma first_segment_supported slashes segment rest :
  all_chars is_slash slashes = true ->
  isLanguageSupported segment = true ->
  rest = "" \/ (exists tail, rest = "/" +:+ tail) ->
  JS.filter_Boolean (JS.split "/" (slashes +:+ segment +:+ rest))
  = segment :: JS.filter_Boolean
                 (match rest with
                  | "" => []
                  | String _ tail => JS.split "/" tail
                  end).
Proof.
  intros Hslashes Hsegment Hrest.
  induction slashes as [| c slashes IH].
  - destruct Hrest as [-> | [tail ->]]; each_code Hsegment; reflexivity.
  - cbn in Hslashes. apply andb_prop in Hslashes as [Hc Hslashes].
    apply Ascii.eqb_eq in Hc as ->.
    cbn [String.append JS.split]. rewrite Ascii.eqb_refl.
    cbn. by apply IH.
Qed.

Lemma extractLanguageFromPath_slashes b slashes segment rest :
  all_chars is_slash slashes = true ->
  isLanguageSupported segment = true ->
  rest = "" \/ (exists tail, rest = "/" +:+ tail) ->
  pathname b = slashes +:+ segment +:+ rest ->
  extractLanguageFromPath b = Some segment.
Proof.
  intros Hslashes Hsegment Hrest Hpath. unfold extractLanguageFromPath.
  rewrite Hpath, first_segment_supported by done.
  by rewrite (supported_length _ Hsegment), Hsegment.
Qed.

Lemma extractLanguageFromPath_shape b old :
  extractLanguageFromPath b = Some old ->
  isLanguageSupported old = true
  /\ exists slashes rest,
      pathname b = slashes +:+ old +:+ rest
      /\ all_chars is_slash slashes = true
      /\ (rest = "" \/ exists tail, rest = "/" +:+ tail).
Proof.
  intros Hextract.
  split; [by eapply extractLanguageFromPath_supported |].
  unfold extractLanguageFromPath in Hextract.
  destruct (JS.filter_Boolean _) as [| segment segments] eqn:Hsegments;
    [done |].
  destruct (_ && _); [| done].
  injection Hextract as ->. by eapply first_segment_shape.
Qed.

Lemma replace_from_step pattern replacement before c s :
  JS.strip_prefix pattern (String c s) = None ->
  JS.replace_from pattern replacement before (String c s)
  = String c (JS.replace_from pattern replacement (before +:+ String c "") s).
Proof. intros H. cbn [JS.replace_from]. by rewrite H. Qed.

(** Replacing the language segment behind at least one slash. *)
Lemma replace_from_slashes slashes old language rest before :
  all_chars is_slash slashes = true ->
  isLanguageSupported old = true ->
  isLanguageSupported language = true ->
  JS.replace_from ("/" +:+ old) ("/" +:+ language) before
    (slashes +:+ "/" +:+ old +:+ rest)
  = slashes +:+ "/" +:+ language +:+ rest.
Proof.
  intros Hslashes Hold Hlanguage. revert before.
  induction slashes as [| c slashes IH]; intros before.
  - each_code Hold; each_code Hlanguage; reflexivity.
  - cbn in Hslashes. apply andb_prop in Hslashes as [Hc Hslashes].
    apply Ascii.eqb_eq in Hc as ->.
    cbn [String.append]. rewrite replace_from_step; [by rewrite IH |].
    clear IH.
    destruct slashes as [| d slashes'].
    + clear -Hold. each_code Hold; reflexivity.
    + cbn in Hslashes. apply andb_prop in Hslashes as [Hd _].
      apply Ascii.eqb_eq in Hd as ->.
      clear -Hold. each_code Hold; reflexivity.
Qed.

(** A path that starts with a slash: its slashes end in one. *)
Lemma slashes_snoc slashes :
  all_chars is_slash slashes = true -> slashes <> "" ->
  exists slashes',
    slashes = slashes' +:+ "/" /\ all_chars is_slash slashes' = true.
Proof.
  induction slashes as [| c slashes IH]; [done |].
  cbn. intros [Hc Hslashes]%andb_prop _.
  apply Ascii.eqb_eq in Hc as ->.
  destruct slashes as [| d slashes'].
  - by exists "".
  - destruct (IH Hslashes) as (slashes'' & Heq & Hall); [done |].
    exists (String "/" slashes''). cbn. by rewrite <- Heq, Hall.
Qed.

(** A rooted path is a slash and then something that starts without
    one. *)
Lemma rooted_slash path :
  rooted path = true -> exists tail, path = "/" +:+ tail.
Proof.
  destruct path as [| c rest]; [done |]. cbn.
  intros [Hc _]%andb_prop. apply Ascii.eqb_eq in Hc as ->. by eexists.
Qed.

Lemma rooted_code language rest :
  isLanguageSupported language = true ->
  rooted ("/" +:+ language +:+ rest) = true.
Proof. intros Hlanguage. each_code Hlanguage; reflexivity. Qed.

Lemma rooted_names_host path : rooted path = true -> names_host path = false.
Proof.
  unfold names_host, rooted, is_slash.
  destruct path as [| c [| d rest]]; cbn [JS.strip_prefix]; [done | |].
  - by destruct (Ascii.eqb "/" c).
  - rewrite (Ascii.eqb_sym c "/"), (Ascii.eqb_sym d "/").
    destruct (Ascii.eqb "/" c); [| done].
    by destruct (Ascii.eqb "/" d).
Qed.

(** ** Switcher *)

Lemma updateURL_run_unfold w :
  updateURL_run w
  = if negb (String.eqb (updateURL_newPath w) (pathname (browser w)))
    then match replaceState (updateURL_newPath w) (browser w) with
         | Some b => ({| i18n := i18n w; browser := b |}, None)
         | None => (w, Some SecurityError)
         end
    else (w, None).
Proof. reflexivity. Qed.

Ltac frame_updateURL :=
  intros; unfold updateURL, updateURL_thrown; rewrite updateURL_run_unfold;
  unfold replaceState;
  repeat match goal with |- context [if ?c then _ else _] => destruct c end;
  reflexivity.

Lemma updateURL_current w : current (updateURL w) = current w.
Proof. frame_updateURL. Qed.

Lemma updateURL_dispatched w :
  dispatched (browser (updateURL w)) = dispatched (browser w).
Proof. frame_updateURL. Qed.

Lemma updateURL_writable w :
  storage_writable (browser (updateURL w)) = storage_writable (browser w).
Proof. frame_updateURL. Qed.


Lemma updateURL_i18n w : i18n (updateURL w) = i18n w.
Proof. frame_updateURL. Qed.

Lemma updateURL_fetched w :
  fetched (browser (updateURL w)) = fetched (browser w).
Proof. frame_updateURL. Qed.

Lemma updateURL_search_lang w :
  search_lang (browser (updateURL w)) = search_lang (browser w).
Proof. frame_updateURL. Qed.

(** [updateURL] throws exactly when it asks for a path that starts with
    two slashes, and then it has changed nothing. *)
Lemma updateURL_thrown_iff w :
  updateURL_thrown w
  = if negb (String.eqb (updateURL_newPath w) (pathname (browser w)))
       && names_host (updateURL_newPath w)
    then Some SecurityError else None.
Proof.
  unfold updateURL_thrown. rewrite updateURL_run_unfold. unfold replaceState.
  destruct (negb _); [| reflexivity].
  by destruct (names_host _).
Qed.


Lemma updateURL_run_pair w : updateURL_run w = (updateURL w, updateURL_thrown w).
Proof. unfold updateURL, updateURL_thrown. by destruct (updateURL_run w). Qed.

(** The path [updateURL] leaves when it returns. *)
Lemma updateURL_pathname w :
  updateURL_thrown w = None ->
  pathname (browser (updateURL w)) = updateURL_newPath w.
Proof.
  rewrite updateURL_thrown_iff. unfold updateURL.
  rewrite updateURL_run_unfold. unfold replaceState.
  destruct (String.eqb _ _) eqn:Heq; cbn [negb andb].
  - intros _. by apply String.eqb_eq in Heq.
  - by destruct (names_host _).
Qed.

(** A path that does not start with two slashes is accepted. *)
Lemma updateURL_accepted w :
  names_host (updateURL_newPath w) = false -> updateURL_thrown w = None.
Proof.
  intros Hhost. rewrite updateURL_thrown_iff, Hhost. by rewrite andb_false_r.
Qed.

Lemma updateURL_unchanged w :
  updateURL_newPath w = pathname (browser w) ->
  updateURL_thrown w = None /\ updateURL w = w.
Proof.
  intros Hsame. unfold updateURL_thrown, updateURL.
  rewrite updateURL_run_unfold, Hsame, String.eqb_refl. done.
Qed.

(** On a rooted path, with a supported language active, [updateURL] asks
    for a rooted path. *)
Lemma updateURL_newPath_rooted w :
  isLanguageSupported (current w) = true ->
  rooted (pathname (browser w)) = true ->
  rooted (updateURL_newPath w) = true.
Proof.
  intros Hcurrent Hrooted. unfold updateURL_newPath.
  destruct (extractLanguageFromPath (browser w)) as [old |] eqn:Hextract.
  - destruct (extractLanguageFromPath_shape _ _ Hextract)
      as (Hold & slashes & rest & Hshape & Hslashes & Hrest).
    cbn [JS.truthy_opt the_string default from_option id].
    rewrite (supported_truthy _ Hold).
    rewrite Hshape in Hrooted |- *.
    destruct slashes as [| c [| d slashes']].
    + clear -Hold Hrooted. each_code Hold; discriminate.
    + cbn in Hslashes. rewrite andb_true_r in Hslashes.
      apply Ascii.eqb_eq in Hslashes as ->.
      unfold JS.replace.
      change (String "/" "" +:+ old +:+ rest)
        with ("" +:+ "/" +:+ old +:+ rest).
      rewrite (replace_from_slashes "" old (current w) rest "") by done.
      by apply rooted_code.
    + cbn in Hslashes. apply andb_prop in Hslashes as [_ [Hd _]%andb_prop].
      apply Ascii.eqb_eq in Hd as ->.
      cbn in Hrooted. apply andb_prop in Hrooted as [_ Hrooted].
      discriminate.
  - cbn [JS.truthy_opt].
    destruct (negb _); [| done].
    by apply rooted_code.
Qed.

(** So it returns, and leaves a rooted path. *)
Lemma updateURL_returns w :
  isLanguageSupported (current w) = true ->
  rooted (pathname (browser w)) = true ->
  updateURL_thrown w = None.
Proof.
  intros Hcurrent Hrooted.
  by apply updateURL_accepted, rooted_names_host, updateURL_newPath_rooted.
Qed.

Lemma updateURL_rooted w :
  isLanguageSupported (current w) = true ->
  rooted (pathname (browser w)) = true ->
  rooted (pathname (browser (updateURL w))) = true.
Proof.
  intros Hcurrent Hrooted.
  rewrite updateURL_pathname by by apply updateURL_returns.
  by apply updateURL_newPath_rooted.
Qed.

Ltac frame_updatePageDirection :=
  intros; unfold updatePageDirection;
  match goal with |- context [languageConfigs !! ?l] =>
    destruct (languageConfigs !! l) end; reflexivity.

Lemma updatePageDirection_current w :
  current (updatePageDirection w) = current w.
Proof. frame_updatePageDirection. Qed.

Lemma updatePageDirection_pathname w :
  pathname (browser (updatePageDirection w)) = pathname (browser w).
Proof. frame_updatePageDirection. Qed.

Lemma updatePageDirection_dispatched w :
  dispatched (browser (updatePageDirection w)) = dispatched (browser w).
Proof. frame_updatePageDirection. Qed.

Lemma updatePageDirection_writable w :
  storage_writable (browser (updatePageDirection w))
  = storage_writable (browser w).
Proof. frame_updatePageDirection. Qed.


Lemma load_settle_browser_frame language response w :
  pathname (browser (fst (load_settle language response w)))
    = pathname (browser w)
  /\ dispatched (browser (fst (load_settle language response w)))
    = dispatched (browser w)
  /\ storage_writable (browser (fst (load_settle language response w)))
    = storage_writable (browser w).
Proof. unfold load_settle. by destruct (load_try response). Qed.

(** What the guard of [changeLanguage] lets through. *)
Lemma changeLanguage_begin_proceeds language w :
  isLanguageSupported language = true ->
  language <> current w ->
  changeLanguage_begin language w
  = (load_request language (set_currentLanguage language w),
     Some {| language_requested := language;
             previousLanguage := current w |}).
Proof.
  intros Hsupported Hother. unfold changeLanguage_begin.
  rewrite Hsupported. apply String.eqb_neq in Hother. by rewrite Hother.
Qed.

Lemma changeLanguage_begin_returns language w :
  isLanguageSupported language = false \/ language = current w ->
  changeLanguage_begin language w = (w, None).
Proof.
  intros [Hunsupported | ->]; unfold changeLanguage_begin.
  - by rewrite Hunsupported.
  - by rewrite String.eqb_refl, orb_true_r.
Qed.


Lemma changeLanguage_resume_fulfilled s loaded w :
  snd (changeLanguage_resume s loaded w) = Fulfilled.
Proof.
  unfold changeLanguage_resume.
  by destruct (changeLanguage_try s loaded w) as [w' [error |]].
Qed.

Lemma changeLanguage_fulfilled language response w :
  snd (changeLanguage language response w) = Fulfilled.
Proof.
  unfold changeLanguage.
  destruct (changeLanguage_begin language w) as [w1 [s |]]; [| reflexivity].
  destruct (load_settle language response w1) as [w2 loaded].
  apply changeLanguage_resume_fulfilled.
Qed.


Lemma changeLanguage_try_writable s w :
  updateURL_thrown w = None ->
  storage_writable (browser w) = true ->
  changeLanguage_try s Fulfilled w
  = (dispatchLanguageChangeEvent
       (with_browser (setItem "sonar_language" (language_requested s))
          (updatePageDirection (updateURL w))),
     None).
Proof.
  intros Hreturns Hw. unfold changeLanguage_try.
  rewrite updateURL_run_pair, Hreturns.
  by rewrite updatePageDirection_writable, updateURL_writable, Hw.
Qed.

Lemma changeLanguage_try_unwritable s w :
  updateURL_thrown w = None ->
  storage_writable (browser w) = false ->
  changeLanguage_try s Fulfilled w
  = (updatePageDirection (updateURL w), Some StorageError).
Proof.
  intros Hreturns Hw. unfold changeLanguage_try.
  rewrite updateURL_run_pair, Hreturns.
  by rewrite updatePageDirection_writable, updateURL_writable, Hw.
Qed.

(** The world in which a call resumes when nothing else ran meanwhile. *)
Lemma changeLanguage_unfold language response w :
  isLanguageSupported language = true ->
  language <> current w ->
  changeLanguage language response w
  = changeLanguage_resume
      {| language_requested := language; previousLanguage := current w |}
      Fulfilled
      (fst (load_settle language response
              (load_request language (set_currentLanguage language w)))).
Proof.
  intros Hsupported Hother. unfold changeLanguage.
  rewrite changeLanguage_begin_proceeds by done.
  pose proof (load_settle_fulfilled language response
                (load_request language (set_currentLanguage language w)))
    as Hfulfilled.
  destruct (load_settle _ _ _) as [w2 loaded].
  cbn in Hfulfilled. by subst loaded.
Qed.

Lemma loaded_world_frame language response w :
  let w2 := fst (load_settle language response
                   (load_request language (set_currentLanguage language w))) in
  current w2 = language
  /\ pathname (browser w2) = pathname (browser w)
  /\ dispatched (browser w2) = dispatched (browser w)
  /\ storage_writable (browser w2) = storage_writable (browser w)
  /\ extractLanguageFromPath (browser w2) = extractLanguageFromPath (browser w).
Proof.
  cbn zeta. unfold load_settle.
  destruct (load_try response); cbn; done.
Qed.







(** What a suspended switch does when its load settles, on a writable
    storage and a rooted path and with a supported active language. *)
Lemma changeLanguage_finish_through s response w :
  storage_writable (browser w) = true ->
  rooted (pathname (browser w)) = true ->
  isLanguageSupported (current w) = true ->
  changeLanguage_finish s response w
  = dispatchLanguageChangeEvent
      (with_browser (setItem "sonar_language" (language_requested s))
         (updatePageDirection
            (updateURL
               (fst (load_settle (language_requested s) response w))))).
Proof.
  intros Hw Hrooted Hcurrent. unfold changeLanguage_finish.
  pose proof (load_settle_fulfilled (language_requested s) response w)
    as Hfulfilled.
  pose proof (load_settle_current (language_requested s) response w)
    as Hsame.
  destruct (load_settle_browser_frame (language_requested s) response w)
    as (Hpath & _ & Hwritable).
  destruct (load_settle _ _ _) as [w2 loaded].
  cbn [fst snd] in *. subst loaded.
  unfold changeLanguage_resume.
  rewrite changeLanguage_try_writable; [done | | congruence].
  apply updateURL_returns; congruence.
Qed.

Lemma changeLanguage_finish_notifies s response w :
  storage_writable (browser w) = true ->
  rooted (pathname (browser w)) = true ->
  isLanguageSupported (current w) = true ->
  let w' := changeLanguage_finish s response w in
  notifications w' = S (notifications w)
  /\ storage_writable (browser w') = true
  /\ rooted (pathname (browser w')) = true
  /\ current w' = current w.
Proof.
  intros Hw Hrooted Hcurrent w'. subst w'.
  rewrite changeLanguage_finish_through by done.
  pose proof (load_settle_current (language_requested s) response w)
    as Hsame.
  destruct (load_settle_browser_frame (language_requested s) response w)
    as (Hpath & Hdispatched & Hwritable).
  set (w2 := fst (load_settle _ _ _)) in *.
  assert (rooted (pathname (browser (updateURL w2))) = true) as Hrooted'
    by (apply updateURL_rooted; congruence).
  unfold notifications.
  cbn [dispatchLanguageChangeEvent with_browser browser dispatchEvent
       dispatched setItem storage_writable pathname].
  change (current (dispatchLanguageChangeEvent ?x))
    with (current (updatePageDirection (updateURL w2))).
  rewrite length_app, updatePageDirection_dispatched, updateURL_dispatched,
    updatePageDirection_writable, updateURL_writable,
    updatePageDirection_pathname, updatePageDirection_current,
    updateURL_current, Hdispatched.
  cbn. split_and!; [lia | congruence | done | done].
Qed.

Lemma changeLanguage_finish_twice s s' response response' w :
  storage_writable (browser w) = true ->
  rooted (pathname (browser w)) = true ->
  isLanguageSupported (current w) = true ->
  notifications
    (changeLanguage_finish s' response' (changeLanguage_finish s response w))
  = S (S (notifications w)).
Proof.
  intros Hw Hrooted Hcurrent.
  destruct (changeLanguage_finish_notifies s response w Hw Hrooted Hcurrent)
    as (Hn & Hw' & Hrooted' & Hcurrent').
  destruct (changeLanguage_finish_notifies s' response' _ Hw' Hrooted')
    as (Hn' & _); [congruence |].
  by rewrite Hn', Hn.
Qed.

(** C7, amended. While a [changeLanguage] call is suspended at its load,
    a second call returns at once only when its code is unsupported or is
    the code already being switched to; a second call for another supported
    code goes ahead, makes its code the active one, and, where no step of
    a switch throws (the storage is writable and the path of the page is
    rooted), two notifications have been sent when both calls have run to
    their end, in either order. *)
Theorem changeLanguage_while_pending (first second : string) (w : World) :
  isLanguageSupported first = true ->
  first <> current w ->
  let w1 := fst (changeLanguage_begin first w) in
  changeLanguage_begin first w1 = (w1, None)
  /\ (isLanguageSupported second = false ->
      changeLanguage_begin second w1 = (w1, None))
  /\ (isLanguageSupported second = true ->
      second <> first ->
      exists s1 s2 w2,
        changeLanguage_begin first w = (w1, Some s1)
        /\ changeLanguage_begin second w1 = (w2, Some s2)
        /\ current w2 = second
        /\ (storage_writable (browser w) = true ->
            rooted (pathname (browser w)) = true ->
            forall r1 r2,
              notifications
                (changeLanguage_finish s2 r2 (changeLanguage_finish s1 r1 w2))
              = S (S (notifications w))
              /\ notifications
                   (changeLanguage_finish s1 r1
                      (changeLanguage_finish s2 r2 w2))
                 = S (S (notifications w)))).
Proof.
  intros Hfirst Hother w1. subst w1.
  rewrite (changeLanguage_begin_proceeds first w) by done.
  cbn [fst].
  split; [by apply changeLanguage_begin_returns; right |].
  split; [by intros; apply changeLanguage_begin_returns; left |].
  intros Hsecond Hdifferent.
  eexists _, _, _. split; [reflexivity |].
  split; [by apply changeLanguage_begin_proceeds |].
  split; [reflexivity |].
  intros Hw Hrooted r1 r2.
  split; by rewrite changeLanguage_finish_twice.
Qed.

Lemma changeLanguage_while_pending_example :
  changeLanguage_begin "fr" (fst (changeLanguage_begin "fr" english_world))
  = (fst (changeLanguage_begin "fr" english_world), None)
  /\ notifications
       (changeLanguage_finish
          {| language_requested := "fr"; previousLanguage := "en" |}
          NoResponse
          (changeLanguage_finish
             {| language_requested := "de"; previousLanguage := "fr" |}
             NoResponse
             (fst (changeLanguage_begin "de"
                     (fst (changeLanguage_begin "fr" english_world))))))
     = 2.
Proof.
  destruct (changeLanguage_while_pending "fr" "de" english_world
              eq_refl ltac:(discriminate)) as (Hsame & _ & Hother).
  split; [exact Hsame |].
  destruct (Hother eq_refl ltac:(discriminate))
    as (s1 & s2 & w2 & Hs1 & Hs2 & _ & Hboth).
  injection Hs1 as <-. injection Hs2 as <- <-.
  destruct (Hboth eq_refl eq_refl NoResponse NoResponse) as [_ Hreverse].
  exact Hreverse.
Defined.

(** C7 as stated fails: a switch to German requested while a switch to
    French is waiting for its load is not rejected; it changes the active
    language, and two notifications are sent for the pair. *)
Lemma changeLanguage_second_call_not_rejected :
  let french := {| language_requested := "fr"; previousLanguage := "en" |} in
  let german := {| language_requested := "de"; previousLanguage := "fr" |} in
  let w1 := fst (changeLanguage_begin "fr" english_world) in
  let w2 := fst (changeLanguage_begin "de" w1) in
  changeLanguage_begin "fr" english_world = (w1, Some french)
  /\ changeLanguage_begin "de" w1 = (w2, Some german)
  /\ current w1 = "fr" /\ current w2 = "de"
  /\ notifications english_world = 0
  /\ notifications
       (changeLanguage_finish german NoResponse
          (changeLanguage_finish french NoResponse w2)) = 2.
Proof. repeat split; reflexivity. Qed.

Ltac each_supported H :=
  apply supported_codes in H;
  repeat (apply elem_of_cons in H as [-> | H]);
  [.. | by apply elem_of_nil in H].

Lemma extractLanguageFromPath_prefixed b old rest :
  isLanguageSupported old = true ->
  rest = "" \/ (exists tail, rest = "/" +:+ tail) ->
  pathname b = "/" +:+ old +:+ rest ->
  extractLanguageFromPath b = Some old.
Proof.
  intros Hold Hrest Hpath. unfold extractLanguageFromPath. rewrite Hpath.
  destruct Hrest as [-> | [tail ->]]; each_supported Hold; reflexivity.
Qed.







(** C10. For a language given explicitly, [getLocalizedURL] returns the
    path unchanged for the default language and the path behind a slash
    and the language otherwise, whatever the path starts with: a path that
    already begins with the language prefix gets a second one. *)
Theorem getLocalizedURL_prefixes (path lang : string) (w : World) :
  lang <> "" ->
  getLocalizedURL path (Some lang) w
  = (if String.eqb lang defaultLanguage then path else "/" +:+ lang +:+ path)
  /\ (lang = defaultLanguage -> getLocalizedURL path (Some lang) w = path)
  /\ (lang <> defaultLanguage ->
      getLocalizedURL path (Some lang) w = "/" +:+ lang +:+ path
      /\ getLocalizedURL ("/" +:+ lang +:+ path) (Some lang) w
         = "/" +:+ lang +:+ "/" +:+ lang +:+ path).
Proof.
  intros Hlang.
  assert (forall p, getLocalizedURL p (Some lang) w
                    = if String.eqb lang defaultLanguage then p
                      else "/" +:+ lang +:+ p) as Hurl.
  { intros p. unfold getLocalizedURL.
    destruct lang as [| c rest]; [done | reflexivity]. }
  split; [apply Hurl |]. split.
  - intros ->. by rewrite Hurl.
  - intros Hnot%String.eqb_neq. by rewrite !Hurl, Hnot.
Qed.

Lemma getLocalizedURL_prefixes_example :
  getLocalizedURL "/es/about" (Some "es") english_world = "/es/es/about".
Proof.
  destruct (getLocalizedURL_prefixes "/about" "es" english_world
              ltac:(discriminate)) as (_ & _ & Hprefix).
  apply Hprefix. discriminate.
Defined.

(** ** Strings *)

Lemma append_assoc (a b c : string) : (a +:+ b) +:+ c = a +:+ b +:+ c.
Proof. induction a as [| x a IH]; cbn; [reflexivity | by rewrite IH]. Qed.

Lemma append_nil_r (a : string) : a +:+ "" = a.
Proof. induction a as [| x a IH]; cbn; [reflexivity | by rewrite IH]. Qed.

Lemma length_append (a b : string) :
  String.length (a +:+ b) = String.length a + String.length b.
Proof. induction a as [| x a IH]; cbn; [reflexivity | by rewrite IH]. Qed.

Lemma take_append (a b : string) : take (String.length a) (a +:+ b) = a.
Proof. induction a as [| x a IH]; cbn; [by destruct b | by rewrite IH]. Qed.

Lemma drop_append (a b : string) : drop (String.length a) (a +:+ b) = b.
Proof. induction a as [| x a IH]; cbn; [by destruct b | exact IH]. Qed.

Lemma strip_prefix_append (p s : string) :
  JS.strip_prefix p (p +:+ s) = Some s.
Proof.
  induction p as [| x p IH]; cbn; [by destruct s |].
  by rewrite Ascii.eqb_refl.
Qed.

Lemma all_chars_append p (a b : string) :
  all_chars p (a +:+ b) = all_chars p a && all_chars p b.
Proof.
  induction a as [| x a IH]; cbn; [reflexivity |].
  by rewrite IH, andb_assoc.
Qed.

Lemma all_chars_impl (p q : ascii -> bool) (s : string) :
  (forall c, p c = true -> q c = true) ->
  all_chars p s = true -> all_chars q s = true.
Proof.
  intros Hpq. induction s as [| x s IH]; cbn; [done |].
  intros [Hx Hs]%andb_prop. by rewrite (Hpq _ Hx), IH.
Qed.

(** ** Character classes *)

Lemma space_not_brace c :
  JS.is_space c = true -> Ascii.eqb c "{" = false /\ Ascii.eqb c "}" = false.
Proof. destruct c as [[] [] [] [] [] [] [] []]; cbn; done. Qed.

Lemma name_char_not_special c :
  is_name_char c = true ->
  JS.is_space c = false
  /\ Ascii.eqb c "{" = false /\ Ascii.eqb c "}" = false
  /\ is_syntax_character c = false.
Proof. destruct c as [[] [] [] [] [] [] [] []]; cbn; done. Qed.

Lemma is_name_literal name :
  is_name name = true -> newRegExp name = Literal name.
Proof.
  unfold is_name, newRegExp, is_literal_text.
  intros [_ Hchars]%andb_prop.
  rewrite (all_chars_impl is_name_char
             (fun c => negb (is_syntax_character c)) name); [done | | done].
  intros c Hc. by destruct (name_char_not_special c Hc) as (_ & _ & _ & ->).
Qed.

(** ** Replacement text *)

Lemma GetSubstitution_plain value matched before after :
  is_plain_value value = true ->
  JS.GetSubstitution value matched before after = value.
Proof.
  unfold is_plain_value.
  induction value as [| c value IH]; [reflexivity |].
  cbn [all_chars]. intros [[Hc _]%andb_prop Hvalue]%andb_prop.
  specialize (IH Hvalue).
  destruct c as [[] [] [] [] [] [] [] []]; try discriminate Hc;
    cbn [JS.GetSubstitution]; by rewrite IH.
Qed.

(** ** Matching one placeholder *)

Lemma space_run_blank l s :
  is_blank l = true -> space_run (l +:+ s) = String.length l + space_run s.
Proof.
  unfold is_blank. induction l as [| c l IH]; cbn; [done |].
  intros [-> Hl]%andb_prop. by rewrite IH.
Qed.

Lemma skip_spaces_blank l s :
  is_blank l = true -> skip_spaces (l +:+ s) = skip_spaces s.
Proof.
  unfold is_blank. induction l as [| c l IH]; cbn; [done |].
  intros [-> Hl]%andb_prop. by apply IH.
Qed.

Lemma space_run_name name s :
  is_name name = true -> space_run (name +:+ s) = 0.
Proof.
  unfold is_name. destruct name as [| c name]; [done |]. cbn.
  intros [Hc _]%andb_prop.
  by destruct (name_char_not_special c Hc) as (-> & _).
Qed.

Lemma backtrack_hit name s k after :
  attempt name k s = Some after -> backtrack name k s = Some after.
Proof. intros H. destruct k; cbn; by rewrite H. Qed.

(** The pattern of a name matches a placeholder of that name, whatever
    the white space around the name. *)
Lemma match_placeholder_same name l r rest :
  is_name name = true -> is_blank l = true -> is_blank r = true ->
  match_placeholder name
    ("{{" +:+ l +:+ name +:+ r +:+ "}}" +:+ rest) = Some rest.
Proof.
  intros Hname Hl Hr. unfold match_placeholder.
  rewrite strip_prefix_append.
  rewrite space_run_blank, space_run_name, Nat.add_0_r by done.
  apply backtrack_hit. unfold attempt.
  rewrite drop_append, strip_prefix_append, skip_spaces_blank by done.
  apply (strip_prefix_append "}}").
Qed.

Lemma strip_prefix_mismatch a p b s :
  Ascii.eqb a b = false -> JS.strip_prefix (String a p) (String b s) = None.
Proof. intros H. cbn. by rewrite H. Qed.

(** Inside the white space before the name no attempt succeeds. *)
Lemma attempt_inside_blank name l s k :
  is_name name = true -> is_blank l = true ->
  k < String.length l ->
  attempt name k (l +:+ s) = None.
Proof.
  intros Hname. unfold is_name in Hname.
  destruct name as [| a name]; [done |].
  cbn in Hname. apply andb_prop in Hname as [Ha _].
  destruct (name_char_not_special a Ha) as (Hspace & _).
  unfold is_blank. revert k.
  induction l as [| c l IH]; intros k; cbn; [lia |].
  intros [Hc Hl]%andb_prop Hk.
  destruct k as [| k].
  - unfold attempt. cbn [drop].
    rewrite strip_prefix_mismatch; [done |].
    apply Ascii.eqb_neq. intros ->. congruence.
  - unfold attempt in *. cbn [drop]. apply IH; [done | lia].
Qed.

(** After the white space, the pattern of one name does not match a
    placeholder of another name. *)
Lemma attempt_other_name name n r rest :
  all_chars is_name_char name = true ->
  all_chars is_name_char n = true ->
  is_blank r = true ->
  name <> n ->
  match JS.strip_prefix name (n +:+ r +:+ "}}" +:+ rest) with
  | Some s1 => JS.strip_prefix "}}" (skip_spaces s1)
  | None => None
  end = None.
Proof.
  revert n. induction name as [| a name IH]; intros n Hname Hn Hr Hne.
  - destruct n as [| b n]; [done |].
    cbn in Hn. apply andb_prop in Hn as [Hb _].
    destruct (name_char_not_special b Hb) as (Hspace & _ & Hclose & _).
    cbn [JS.strip_prefix String.append skip_spaces]. rewrite Hspace.
    by rewrite Ascii.eqb_sym, Hclose.
  - cbn in Hname. apply andb_prop in Hname as [Ha Hname].
    destruct (name_char_not_special a Ha) as (Hspace & _ & Hclose & _).
    destruct n as [| b n].
    + cbn [String.append].
      destruct r as [| c r].
      * cbn [String.append]. by rewrite strip_prefix_mismatch.
      * cbn in Hr. apply andb_prop in Hr as [Hc _].
        cbn [String.append]. rewrite strip_prefix_mismatch; [done |].
        apply Ascii.eqb_neq. intros ->. congruence.
    + cbn in Hn. apply andb_prop in Hn as [_ Hn].
      cbn [String.append JS.strip_prefix].
      destruct (Ascii.eqb_spec a b) as [-> | _]; [| done].
      apply IH; [done | done | done | congruence].
Qed.

Lemma backtrack_none name s k :
  (forall j, j <= k -> attempt name j s = None) ->
  backtrack name k s = None.
Proof.
  induction k as [| k IH]; intros Hnone; cbn.
  - by rewrite Hnone.
  - rewrite Hnone by lia. apply IH. intros j Hj. apply Hnone. lia.
Qed.

Lemma match_placeholder_other name n l r rest :
  is_name name = true -> is_name n = true ->
  is_blank l = true -> is_blank r = true ->
  name <> n ->
  match_placeholder name ("{{" +:+ l +:+ n +:+ r +:+ "}}" +:+ rest) = None.
Proof.
  intros Hname Hn Hl Hr Hne. unfold match_placeholder.
  rewrite strip_prefix_append.
  rewrite space_run_blank, space_run_name, Nat.add_0_r by done.
  apply backtrack_none. intros j Hj.
  destruct (decide (j = String.length l)) as [-> | Hlt].
  - unfold attempt. rewrite drop_append.
    apply attempt_other_name; try done.
    + unfold is_name in Hname. by apply andb_prop in Hname as [_ ?].
    + unfold is_name in Hn. by apply andb_prop in Hn as [_ ?].
  - apply attempt_inside_blank; [done | done | lia].
Qed.

Lemma match_placeholder_no_brace name c s :
  Ascii.eqb c "{" = false -> match_placeholder name (String c s) = None.
Proof.
  intros Hc. unfold match_placeholder.
  rewrite strip_prefix_mismatch; [done | by rewrite Ascii.eqb_sym].
Qed.

Lemma match_placeholder_one_brace name c d s :
  Ascii.eqb d "{" = false ->
  match_placeholder name (String c (String d s)) = None.
Proof.
  intros Hd. unfold match_placeholder. cbn [JS.strip_prefix].
  destruct (Ascii.eqb "{" c); [| done].
  rewrite Ascii.eqb_sym, Hd. done.
Qed.

(** ** One global replacement *)

Lemma replace_scan_skip name value m rest before :
  replace_scan name value before (String.length m) (m +:+ rest)
  = replace_scan name value (before +:+ m) O rest.
Proof.
  revert before. induction m as [| c m IH]; intros before; cbn [String.length].
  - cbn [String.append]. rewrite append_nil_r.
    destruct rest; reflexivity.
  - cbn [String.append replace_scan]. rewrite IH. f_equal.
    by rewrite append_assoc.
Qed.

Lemma replace_scan_match name value c m after before :
  match_placeholder name (String c m +:+ after) = Some after ->
  replace_scan name value before O (String c m +:+ after)
  = JS.GetSubstitution value (String c m) before after
    +:+ replace_scan name value (before +:+ String c m) O after.
Proof.
  intros Hmatch. cbn [String.append] in *. cbn [replace_scan].
  rewrite Hmatch.
  replace (String.length (String c (m +:+ after)) - String.length after)
    with (String.length (String c m))
    by (cbn [String.length]; rewrite length_append; lia).
  change (String c (m +:+ after)) with (String c m +:+ after).
  rewrite take_append.
  replace (String.length (String c m) - 1) with (String.length m)
    by (cbn [String.length]; lia).
  cbn [String.append]. rewrite replace_scan_skip. by rewrite append_assoc.
Qed.

Lemma replace_scan_no_match name value c s before :
  match_placeholder name (String c s) = None ->
  replace_scan name value before O (String c s)
  = String c (replace_scan name value (before +:+ String c "") O s).
Proof. intros Hnone. cbn [replace_scan]. by rewrite Hnone. Qed.

(** Text without an opening brace is passed over unchanged. *)
Lemma replace_scan_text name value s rest before :
  no_open_brace s = true ->
  replace_scan name value before O (s +:+ rest)
  = s +:+ replace_scan name value (before +:+ s) O rest.
Proof.
  unfold no_open_brace. revert before.
  induction s as [| c s IH]; intros before; cbn [all_chars String.append].
  - by rewrite append_nil_r.
  - intros [Hc Hs]%andb_prop. apply negb_true_iff in Hc.
    rewrite replace_scan_no_match by by apply match_placeholder_no_brace.
    rewrite IH by done. by rewrite append_assoc.
Qed.

Lemma render_hole l n r rest :
  render_piece (Hole l n r) +:+ rest
  = "{{" +:+ l +:+ n +:+ r +:+ "}}" +:+ rest.
Proof. cbn [render_piece]. by rewrite !append_assoc. Qed.

Lemma blank_no_open_brace s : is_blank s = true -> no_open_brace s = true.
Proof.
  apply all_chars_impl. intros c Hc.
  by destruct (space_not_brace c Hc) as [-> _].
Qed.

Lemma name_no_open_brace s : is_name s = true -> no_open_brace s = true.
Proof.
  unfold is_name. intros [_ Hs]%andb_prop. revert Hs.
  apply all_chars_impl. intros c Hc.
  by destruct (name_char_not_special c Hc) as (_ & -> & _).
Qed.

(** A placeholder of another name is passed over unchanged. *)
Lemma replace_scan_other name value n l r rest before :
  is_name name = true -> is_name n = true ->
  is_blank l = true -> is_blank r = true ->
  name <> n ->
  replace_scan name value before O (render_piece (Hole l n r) +:+ rest)
  = render_piece (Hole l n r)
    +:+ replace_scan name value (before +:+ render_piece (Hole l n r)) O rest.
Proof.
  intros Hname Hn Hl Hr Hne.
  pose proof (match_placeholder_other name n l r rest Hname Hn Hl Hr Hne)
    as Hnone.
  set (body := l +:+ n +:+ r +:+ "}}").
  assert (no_open_brace body = true) as Hbody.
  { unfold body, no_open_brace. rewrite !all_chars_append.
    fold (no_open_brace l) (no_open_brace n) (no_open_brace r).
    by rewrite blank_no_open_brace, name_no_open_brace, blank_no_open_brace. }
  assert ("{{" +:+ l +:+ n +:+ r +:+ "}}" +:+ rest
          = String "{" (String "{" (body +:+ rest))) as Hshape.
  { unfold body. by rewrite !append_assoc. }
  rewrite Hshape in Hnone.
  change (render_piece (Hole l n r)) with (String "{" (String "{" body)).
  cbn [String.append].
  rewrite replace_scan_no_match by exact Hnone.
  assert (exists d body', body = String d body'
                          /\ Ascii.eqb d "{" = false) as (d & body' & Hd & Hnot).
  { unfold no_open_brace in Hbody.
    destruct body as [| d body'] eqn:E.
    - exfalso. unfold body in E.
      destruct l; [| done]. destruct n; [| done]. destruct r; done.
    - cbn in Hbody. apply andb_prop in Hbody as [Hd _].
      apply negb_true_iff in Hd. by exists d, body'. }
  rewrite replace_scan_no_match
    by (rewrite Hd; by apply match_placeholder_one_brace).
  rewrite replace_scan_text by exact Hbody.
  do 4 f_equal. by rewrite !append_assoc.
Qed.

(** A placeholder of the name is replaced by the value. *)
Lemma replace_scan_same name value l r rest before :
  is_name name = true -> is_plain_value value = true ->
  is_blank l = true -> is_blank r = true ->
  replace_scan name value before O (render_piece (Hole l name r) +:+ rest)
  = value
    +:+ replace_scan name value (before +:+ render_piece (Hole l name r))
          O rest.
Proof.
  intros Hname Hvalue Hl Hr.
  pose proof (match_placeholder_same name l r rest Hname Hl Hr) as Hmatch.
  rewrite <- render_hole in Hmatch.
  change (render_piece (Hole l name r))
    with (String "{" (String "{" (l +:+ name +:+ r +:+ "}}"))) in *.
  rewrite replace_scan_match by exact Hmatch.
  by rewrite GetSubstitution_plain.
Qed.

Lemma plain_value_no_open_brace value :
  is_plain_value value = true -> no_open_brace value = true.
Proof.
  apply all_chars_impl. intros c [_ Hc]%andb_prop. exact Hc.
Qed.

(** One pass over a template. *)
Lemma replace_scan_render name value pieces before :
  is_name name = true -> is_plain_value value = true ->
  forallb well_formed pieces = true ->
  replace_scan name value before O (render pieces)
  = render (map (fill_one name value) pieces).
Proof.
  intros Hname Hvalue. revert before.
  induction pieces as [| p pieces IH]; intros before; [reflexivity |].
  cbn [forallb]. intros [Hp Hpieces]%andb_prop.
  cbn [render map].
  destruct p as [s | l n r].
  - cbn [render_piece fill_one well_formed] in *.
    rewrite replace_scan_text by done. by rewrite IH.
  - cbn [well_formed] in Hp.
    apply andb_prop in Hp as [[Hl Hn]%andb_prop Hr].
    cbn [fill_one].
    destruct (String.eqb_spec n name) as [-> | Hne].
    + rewrite replace_scan_same by done. by rewrite IH.
    + rewrite replace_scan_other by (done || congruence). by rewrite IH.
Qed.

Lemma fill_one_well_formed name value pieces :
  is_plain_value value = true ->
  forallb well_formed pieces = true ->
  forallb well_formed (map (fill_one name value) pieces) = true.
Proof.
  intros Hvalue. induction pieces as [| p pieces IH]; [done |].
  cbn [forallb map]. intros [Hp Hpieces]%andb_prop.
  rewrite IH by done. rewrite andb_true_r.
  destruct p as [s | l n r]; [exact Hp |].
  cbn [fill_one]. destruct (String.eqb n name); [| exact Hp].
  by apply plain_value_no_open_brace.
Qed.

Lemma filled_nil pieces : filled [] pieces = render pieces.
Proof.
  induction pieces as [| [s | l n r] pieces IH]; cbn; [done | |];
    by rewrite IH.
Qed.

Lemma filled_cons name value entries pieces :
  filled ((name, value) :: entries) pieces
  = filled entries (map (fill_one name value) pieces).
Proof.
  induction pieces as [| p pieces IH]; [reflexivity |].
  cbn [filled map]. rewrite IH. f_equal.
  destruct p as [s | l n r]; [reflexivity |].
  cbn [fill fill_one assoc].
  destruct (String.eqb n name); reflexivity.
Qed.

(** All the passes of [t]. *)
Lemma interpolate_render entries pieces :
  forallb plain_entry entries = true ->
  forallb well_formed pieces = true ->
  interpolate entries (render pieces) = Returns (filled entries pieces).
Proof.
  revert pieces.
  induction entries as [| [name value] entries IH]; intros pieces.
  - intros _ _. cbn. by rewrite filled_nil.
  - cbn [forallb]. intros [Hentry Hentries]%andb_prop Hpieces.
    unfold plain_entry in Hentry. cbn [fst snd] in Hentry.
    apply andb_prop in Hentry as [Hname Hvalue].
    cbn [interpolate]. rewrite is_name_literal by done.
    unfold replace_all. rewrite replace_scan_render by done.
    rewrite IH by (done || by apply fill_one_well_formed).
    by rewrite filled_cons.
Qed.

(** C9, amended. When the template is text without opening braces
    interleaved with placeholders, and every provided name is a non-empty
    word without white space or syntax characters and every value is free
    of dollars and opening braces, [t] returns the template with each
    placeholder whose name is provided replaced by its value, whatever the
    white space around the name, and everything else verbatim. *)
Theorem t_fills_placeholders
    (key : string) (entries : list (string * string)) (pieces : list Piece)
    (w : World) :
  candidate key w = render pieces ->
  forallb well_formed pieces = true ->
  forallb plain_entry entries = true ->
  t key (Some entries) w = Returns (filled entries pieces).
Proof.
  intros Htemplate Hpieces Hentries. unfold t. rewrite Htemplate.
  by apply interpolate_render.
Qed.

Lemma t_fills_placeholders_example :
  t "greeting" (Some [("name", "Ava")]) spanish_world
  = Returns "Hola Ava, {{unknown}}".
Proof.
  apply (t_fills_placeholders "greeting" [("name", "Ava")]
           [Text "Hola "; Hole " " "name" " "; Text ", ";
            Hole "" "unknown" ""] spanish_world);
    reflexivity.
Defined.

(** C9 as stated fails: a dollar in a value is read as a replacement
    pattern, and a value is itself searched for the placeholders of the
    entries that follow it. *)
Lemma t_value_not_inserted_verbatim :
  candidate "price" english_world = "Price: {{amount}}"
  /\ t "price" (Some [("amount", "$$5")]) english_world
     = Returns "Price: $5"
  /\ t "price" (Some [("amount", "$$5")]) english_world
     <> Returns "Price: $$5"
  /\ candidate "chain" spanish_world = "{{a}}"
  /\ t "chain" (Some [("a", "{{b}}"); ("b", "x")]) spanish_world
     = Returns "x".
Proof. repeat split; try reflexivity. discriminate. Qed.

(** C4: a placeholder name with an unbalanced parenthesis makes the
    [RegExp] constructor, and with it [t], throw. *)
Theorem t_throws_on_open_parenthesis :
  candidate "greeting" english_world = "Hello {{name}}"
  /\ t "greeting" (Some [("(", "x")]) english_world = Throws SyntaxError.
Proof. split; reflexivity. Qed.

(** ** More on the registry *)

Lemma assoc_Map_set {A} k k' (v : A) entries :
  assoc k (Map_set k' v entries)
  = if String.eqb k k' then Some v else assoc k entries.
Proof.
  induction entries as [| [k0 v0] rest IH]; cbn; [done |].
  destruct (String.eqb_spec k' k0) as [-> | Hne]; cbn.
  - by destruct (String.eqb k k0).
  - destruct (String.eqb_spec k k0) as [-> | Hne'].
    + apply String.eqb_neq in Hne. by rewrite String.eqb_sym, Hne.
    + exact IH.
Qed.

Lemma foldl_Map_set_lookup k langs entries (configs : gmap string LanguageConfig) :
  assoc k entries = configs !! k ->
  assoc k (foldl (fun entries lang => Map_set (code lang) lang entries)
             entries langs)
  = foldl (fun configs lang => <[code lang := lang]> configs) configs langs
      !! k.
Proof.
  revert entries configs.
  induction langs as [| lang rest IH]; intros entries configs Hsame;
    [exact Hsame |].
  cbn [foldl]. apply IH.
  rewrite assoc_Map_set, lookup_insert.
  destruct (String.eqb_spec k (code lang)) as [-> | Hne].
  - by rewrite decide_True.
  - by rewrite decide_False.
Qed.

(** The ordered reading of the registry and the map used for look-ups
    hold the same entries. *)
Lemma languageConfigs_entries_lookup k :
  assoc k languageConfigs_entries = languageConfigs !! k.
Proof. by apply foldl_Map_set_lookup. Qed.

Lemma supported_iff language :
  isLanguageSupported language = true
  <-> language ∈ ["en"; "es"; "fr"; "de"; "ja"; "zh"].
Proof.
  split; [apply supported_codes |].
  intros H.
  repeat (apply elem_of_cons in H as [-> | H]; [reflexivity |]).
  by apply elem_of_nil in H.
Qed.

(** X1. [getSupportedLanguages] lists, in the order of registration and
    without repetition, exactly the configurations of the codes that
    [isLanguageSupported] accepts; each is enabled and is the entry the
    registry holds for its code. Arabic is registered but not listed. *)
Theorem getSupportedLanguages_isLanguageSupported :
  (forall language,
      isLanguageSupported language = true
      <-> language ∈ map code getSupportedLanguages)
  /\ (forall config,
        config ∈ getSupportedLanguages ->
        enabled config = true
        /\ languageConfigs !! code config = Some config)
  /\ NoDup (map code getSupportedLanguages)
  /\ map code getSupportedLanguages = ["en"; "es"; "fr"; "de"; "ja"; "zh"]
  /\ is_Some (languageConfigs !! "ar")
  /\ isLanguageSupported "ar" = false.
Proof.
  assert (map code getSupportedLanguages
          = ["en"; "es"; "fr"; "de"; "ja"; "zh"]) as Hcodes by reflexivity.
  split; [intros language; rewrite Hcodes; apply supported_iff |].
  split.
  - intros config Hin.
    unfold getSupportedLanguages in Hin.
    apply list_elem_of_In, List.filter_In in Hin as [Hin Henabled].
    split; [exact Henabled |].
    apply list_elem_of_In in Hin. cbn in Hin.
    repeat (apply elem_of_cons in Hin as [-> | Hin]; [reflexivity |]).
    by apply elem_of_nil in Hin.
  - rewrite Hcodes. split; [| split; [reflexivity | split; [| reflexivity]]].
    + by apply (bool_decide_unpack _).
    + by eexists.
Qed.

(** ** More on the resolver *)

Lemma usable_truthy found text :
  usable found = Some text -> JS.truthy text = true.
Proof. destruct found as [[| c s] |]; cbn; try done; by intros [= <-]. Qed.

Lemma candidate_not_empty key w : key <> "" -> candidate key w <> "".
Proof.
  intros Hkey. rewrite candidate_usable.
  assert (forall found text, usable found = Some text -> text <> "")
    as Husable.
  { intros found text H%usable_truthy ->. discriminate. }
  destruct (usable (getTranslation key (current w) w)) eqn:Hactive;
    [by eapply Husable |].
  destruct (String.eqb (current w) defaultLanguage); [exact Hkey |].
  destruct (usable (getTranslation key defaultLanguage w)) eqn:Hdefault;
    [by eapply Husable | exact Hkey].
Qed.

(** X2. Without interpolations [t] always returns, and for a key that is
    not empty what it returns is never the empty string: an empty
    translation gives way to the default language's and then to the key. *)
Theorem t_never_blank (key : string) (w : World) :
  key <> "" ->
  exists text, t key None w = Returns text /\ text <> "".
Proof.
  intros Hkey. exists (candidate key w).
  split; [reflexivity | by apply candidate_not_empty].
Qed.

Lemma t_never_blank_example :
  exists text,
    t "untranslated" None spanish_world = Returns text /\ text <> "".
Proof. apply t_never_blank. discriminate. Defined.

Lemma match_placeholder_single name : match_placeholder name "{" = None.
Proof. reflexivity. Qed.

Lemma replace_scan_no_double_brace name value s before :
  has_double_brace s = false ->
  replace_scan name value before O s = s.
Proof.
  revert before. induction s as [| c s IH]; intros before; [done |].
  destruct s as [| d s'].
  - intros _.
    destruct (Ascii.eqb_spec c "{") as [-> | Hc].
    + by rewrite replace_scan_no_match.
    + rewrite replace_scan_no_match; [done |].
      apply match_placeholder_no_brace. by apply Ascii.eqb_neq.
  - cbn [has_double_brace]. intros [Hcd Hrest]%orb_false_elim.
    rewrite replace_scan_no_match.
    + by rewrite IH.
    + apply andb_false_iff in Hcd as [Hc | Hd].
      * by apply match_placeholder_no_brace.
      * by apply match_placeholder_one_brace.
Qed.

Lemma interpolate_no_double_brace entries translation :
  forallb (fun entry => is_literal_text (fst entry)) entries = true ->
  has_double_brace translation = false ->
  interpolate entries translation = Returns translation.
Proof.
  induction entries as [| [name value] rest IH];
    cbn [forallb interpolate fst]; [done |].
  intros [Hname Hrest]%andb_prop Htranslation.
  unfold newRegExp, replace_all. rewrite Hname.
  rewrite replace_scan_no_double_brace by done. by apply IH.
Qed.

(** X4. A translation in which [{{] does not occur is returned as it is,
    whatever the interpolation map holds under names without syntax
    characters: no value is inserted and no dollar sequence is expanded. *)
Theorem t_without_placeholders
    (key : string) (entries : list (string * string)) (w : World) :
  has_double_brace (candidate key w) = false ->
  forallb (fun entry => is_literal_text (fst entry)) entries = true ->
  t key (Some entries) w = t key None w.
Proof.
  intros Htemplate Hliteral. unfold t.
  by apply interpolate_no_double_brace.
Qed.

Lemma t_without_placeholders_example :
  t "footer.privacy" (Some [("name", "$&"); ("x y", "{{name}}")])
    spanish_world
  = t "footer.privacy" None spanish_world.
Proof. apply t_without_placeholders; reflexivity. Defined.

(** ** Dotted keys *)

Lemma split_append sep a b :
  JS.split sep (a +:+ String sep b) = JS.split sep a ++ JS.split sep b.
Proof.
  induction a as [| c a IH]; cbn [String.append JS.split].
  - by rewrite Ascii.eqb_refl.
  - destruct (Ascii.eqb c sep); [by rewrite IH |].
    rewrite IH.
    pose proof (split_not_nil sep a) as Hne.
    by destruct (JS.split sep a).
Qed.

Lemma walk_app keys keys' tree :
  walk (keys ++ keys') tree
  = match walk keys tree with
    | Some subtree => walk keys' subtree
    | None => None
    end.
Proof.
  revert tree. induction keys as [| k keys IH]; intros tree; [done |].
  cbn [app walk].
  destruct (truthy_value tree && is_object_type tree); [| done].
  destruct (property k tree); [apply IH | done].
Qed.

Lemma walk_falsy keys tree :
  keys <> [] -> truthy_value tree = false -> walk keys tree = None.
Proof. intros Hkeys Htree. destruct keys; [done |]. cbn. by rewrite Htree. Qed.

(** X5. Keys compose: when the key [a] leads to a subtree of the tree
    loaded for a language, looking up [a.b] in that tree is looking up [b]
    in the subtree. *)
Theorem getTranslation_nested
    (a b language : string) (tree subtree : JSON) (w : World) :
  walk (JS.split "." a) tree = Some subtree ->
  getTranslation (a +:+ "." +:+ b) language (set_translation language tree w)
  = getTranslation b language (set_translation language subtree w).
Proof.
  intros Hwalk. unfold getTranslation. cbn [set_translation i18n translations].
  rewrite !lookup_insert_eq.
  change (a +:+ "." +:+ b) with (a +:+ String "." b).
  rewrite split_append, walk_app, Hwalk.
  destruct (truthy_value tree) eqn:Htree.
  - cbn [negb]. destruct (truthy_value subtree) eqn:Hsub; [done |].
    cbn [negb]. by rewrite walk_falsy by (apply split_not_nil || done).
  - by rewrite walk_falsy in Hwalk by (apply split_not_nil || done).
Qed.

Lemma getTranslation_nested_example :
  getTranslation "footer.onlyInEnglish" "en"
    (set_translation "en" english_only english_world)
  = getTranslation "onlyInEnglish" "en"
      (set_translation "en"
         (JObject [("onlyInEnglish", JString "Only in English")])
         english_world).
Proof. apply (getTranslation_nested "footer" "onlyInEnglish"). reflexivity. Defined.

(** ** More on paths *)

(** What [updateURL] makes of a rooted path: the language of the path is
    then the active one, unless the path had no language and the active
    one is the default. *)
Lemma updateURL_extract w :
  isLanguageSupported (current w) = true ->
  rooted (pathname (browser w)) = true ->
  (extractLanguageFromPath (browser w) = None ->
   current w = defaultLanguage ->
   updateURL w = w)
  /\ (extractLanguageFromPath (browser w) <> None
      \/ current w <> defaultLanguage ->
      extractLanguageFromPath (browser (updateURL w)) = Some (current w)).
Proof.
  intros Hcurrent Hrooted.
  pose proof (updateURL_pathname w (updateURL_returns w Hcurrent Hrooted))
    as Hnew.
  unfold updateURL_newPath in Hnew.
  destruct (rooted_slash _ Hrooted) as [tail Hpath].
  destruct (extractLanguageFromPath (browser w)) as [old |] eqn:Hextract.
  - destruct (extractLanguageFromPath_shape _ _ Hextract)
      as (Hold & slashes & rest & Hshape & Hslashes & Hrest).
    cbn [JS.truthy_opt the_string default] in Hnew.
    rewrite (supported_truthy _ Hold) in Hnew.
    destruct (slashes_snoc slashes Hslashes) as (slashes' & -> & Hslashes').
    { intros ->. rewrite Hshape in Hpath. cbn in Hpath.
      clear -Hold Hpath. each_code Hold; discriminate. }
    rewrite append_assoc in Hshape. rewrite Hshape in Hnew.
    unfold JS.replace in Hnew. rewrite replace_from_slashes in Hnew by done.
    split; [done |].
    intros _.
    apply (extractLanguageFromPath_slashes _ (slashes' +:+ "/")
             (current w) rest); try done.
    by rewrite Hnew, append_assoc.
  - cbn [JS.truthy_opt] in Hnew.
    destruct (String.eqb_spec (current w) defaultLanguage) as [Hdefault | Hne];
      cbn [negb] in Hnew.
    + split; [| by intros [|]].
      intros _ _. apply updateURL_unchanged.
      unfold updateURL_newPath. rewrite Hextract. cbn [JS.truthy_opt].
      by rewrite Hdefault, String.eqb_refl.
    + split; [done |]. intros _.
      apply (extractLanguageFromPath_prefixed _ (current w)
               (pathname (browser w))); [done | | done].
      right. by exists tail.
Qed.

(** ** More on the switcher *)

Lemma updateURL_fixed w :
  extractLanguageFromPath (browser w) = Some (current w) ->
  rooted (pathname (browser w)) = true ->
  updateURL w = w.
Proof.
  intros Hextract Hrooted. apply updateURL_unchanged.
  destruct (rooted_slash _ Hrooted) as [tail Hpath].
  destruct (extractLanguageFromPath_shape _ _ Hextract)
    as (Hcurrent & slashes & rest & Hshape & Hslashes & Hrest).
  destruct (slashes_snoc slashes Hslashes) as (slashes' & -> & Hslashes').
  { intros ->. rewrite Hshape in Hpath. cbn in Hpath.
    clear -Hcurrent Hpath. remember (current w) as l eqn:Hl. clear Hl.
    each_code Hcurrent; discriminate. }
  rewrite append_assoc in Hshape.
  unfold updateURL_newPath. rewrite Hextract.
  cbn [JS.truthy_opt the_string default from_option id].
  rewrite (supported_truthy _ Hcurrent).
  unfold JS.replace. rewrite Hshape at 1.
  by rewrite replace_from_slashes.
Qed.

(** X6. On a rooted path (one slash at its start, not two), with a
    supported language active, [updateURL] is idempotent: once it has run,
    running it again changes nothing and calls [history.replaceState] no
    more; and the path it leaves is rooted again. *)
Theorem updateURL_idempotent (w : World) :
  isLanguageSupported (current w) = true ->
  rooted (pathname (browser w)) = true ->
  updateURL (updateURL w) = updateURL w
  /\ rooted (pathname (browser (updateURL w))) = true.
Proof.
  intros Hcurrent Hrooted.
  pose proof (updateURL_rooted w Hcurrent Hrooted) as Hrooted'.
  split; [| done].
  destruct (updateURL_extract w Hcurrent Hrooted) as (Hsame & Hextract).
  destruct (extractLanguageFromPath (browser w)) as [old |] eqn:Hold.
  - apply updateURL_fixed; [| done].
    rewrite updateURL_current. apply Hextract. by left.
  - destruct (String.eqb_spec (current w) defaultLanguage) as [Hdefault | Hne].
    + by rewrite !Hsame.
    + apply updateURL_fixed; [| done].
      rewrite updateURL_current. apply Hextract. by right.
Qed.

Lemma updateURL_idempotent_example :
  updateURL (updateURL (set_currentLanguage "fr" spanish_world))
  = updateURL (set_currentLanguage "fr" spanish_world).
Proof.
  apply updateURL_idempotent; reflexivity.
Defined.

(** X7. A localized URL is recognised: for a supported language other
    than the default and a path that is empty or starts with a slash, the
    path [getLocalizedURL] builds has that language as the language of the
    path, and a browser at it with no supported [lang] parameter detects
    that language. *)
Theorem getLocalizedURL_recognised
    (path lang : string) (w : World) (b : Browser) :
  isLanguageSupported lang = true ->
  lang <> defaultLanguage ->
  path = "" \/ (exists tail, path = "/" +:+ tail) ->
  pathname b = getLocalizedURL path (Some lang) w ->
  extractLanguageFromPath b = Some lang
  /\ (supported_value (search_lang b) = false -> detectLanguage b = lang).
Proof.
  intros Hlang Hne Hpath Hb.
  assert (extractLanguageFromPath b = Some lang) as Hextract.
  { apply (extractLanguageFromPath_prefixed b lang path); [done | done |].
    rewrite Hb. unfold getLocalizedURL.
    cbn [JS.truthy_opt the_string default from_option id].
    rewrite (supported_truthy _ Hlang).
    apply String.eqb_neq in Hne. by rewrite Hne. }
  split; [exact Hextract |].
  intros Hquery. unfold detectLanguage.
  by rewrite Hquery, Hextract, supported_value_Some, Hlang.
Qed.

Lemma getLocalizedURL_recognised_example :
  extractLanguageFromPath (page "/ja/work") = Some "ja".
Proof.
  apply (getLocalizedURL_recognised "/work" "ja" english_world);
    [reflexivity | discriminate | right; by exists "work" | reflexivity].
Defined.

Lemma supported_config language :
  isLanguageSupported language = true ->
  exists config,
    languageConfigs !! language = Some config
    /\ direction config = ltr /\ enabled config = true
    /\ code config = language.
Proof. intros H. each_code H; by eexists. Qed.

Lemma updatePageDirection_supported w :
  isLanguageSupported (current w) = true ->
  updatePageDirection w
  = with_browser (set_document ltr (current w)) (set_isRTL false w).
Proof.
  intros (config & Hconfig & Hltr & _)%supported_config.
  unfold updatePageDirection. by rewrite Hconfig, Hltr.
Qed.

(** The world a switch that goes through ends in. *)
Lemma changeLanguage_success language response w :
  isLanguageSupported language = true ->
  language <> current w ->
  storage_writable (browser w) = true ->
  rooted (pathname (browser w)) = true ->
  fst (changeLanguage language response w)
  = dispatchLanguageChangeEvent
      (with_browser (setItem "sonar_language" language)
         (updatePageDirection
            (updateURL
               (set_translation language (stored language response)
                  (with_browser
                     (if failed response then log_console else id)
                     (load_request language
                        (set_currentLanguage language w))))))).
Proof.
  intros Hsupported Hother Hwritable Hrooted.
  rewrite changeLanguage_unfold by done.
  destruct (loaded_world_frame language response w)
    as (Hcurrent2 & Hpath2 & _ & Hw2 & _).
  unfold changeLanguage_resume.
  rewrite changeLanguage_try_writable;
    [| apply updateURL_returns; congruence | congruence].
  cbn [fst language_requested]. do 4 f_equal.
  unfold load_settle, stored, failed, load_try.
  destruct response as [| [] []]; reflexivity.
Qed.

(** X8. A switch that goes through (supported code other than the
    active one, writable storage, rooted path) makes the code the active
    language, leaves the path rooted,
    stores it as the preference, stores the tree the load delivers for it,
    sets the document language with direction left-to-right, fetches the
    file of the code once, and dispatches one event that carries the code,
    its registry entry and [isRTL = false]. *)
Theorem changeLanguage_effects
    (language : string) (response : Response) (w : World) :
  isLanguageSupported language = true ->
  language <> current w ->
  storage_writable (browser w) = true ->
  rooted (pathname (browser w)) = true ->
  let w' := fst (changeLanguage language response w) in
  current w' = language
  /\ rooted (pathname (browser w')) = true
  /\ localStorage (browser w') !! "sonar_language" = Some language
  /\ translations (i18n w') !! language = Some (stored language response)
  /\ document_lang (browser w') = language
  /\ document_dir (browser w') = ltr
  /\ isRTL (i18n w') = false
  /\ fetched (browser w')
     = fetched (browser w) ++ [translationsURL language]
  /\ dispatched (browser w')
     = dispatched (browser w)
       ++ [{| detail_language := language;
              detail_config := languageConfigs !! language;
              detail_isRTL := false |}]
  /\ is_Some (languageConfigs !! language).
Proof.
  intros Hsupported Hother Hwritable Hrooted w'. subst w'.
  rewrite changeLanguage_success by done.
  set (w2 := set_translation _ _ _).
  assert (current (updateURL w2) = language) as Hcurrent
    by by rewrite updateURL_current.
  assert (rooted (pathname (browser (updateURL w2))) = true) as Hrooted'.
  { apply updateURL_rooted; [done |].
    subst w2. cbn. by destruct (failed response). }
  rewrite updatePageDirection_supported by by rewrite Hcurrent.
  rewrite Hcurrent.
  pose proof (updateURL_i18n w2) as Hi18n.
  assert (forall {A} (f : Browser -> A) b,
             (forall b, f (log_console b) = f b) ->
             f ((if failed response then log_console else id) b) = f b)
    as Hlog.
  { intros A f b Hf. destruct (failed response); [apply Hf | done]. }
  split_and!.
  - exact Hcurrent.
  - exact Hrooted'.
  - cbn. apply lookup_insert_eq.
  - cbn. rewrite Hi18n. subst w2. cbn. apply lookup_insert_eq.
  - reflexivity.
  - reflexivity.
  - reflexivity.
  - cbn. rewrite updateURL_fetched. subst w2. cbn.
    by rewrite (Hlog _ fetched).
  - unfold dispatchLanguageChangeEvent.
    change (current (with_browser _ (with_browser _
                                       (set_isRTL false (updateURL w2)))))
      with (current (updateURL w2)).
    rewrite Hcurrent.
    cbn [with_browser browser dispatchEvent dispatched set_document setItem
         set_isRTL i18n isRTL].
    rewrite updateURL_dispatched. subst w2.
    cbn [with_browser browser set_translation load_request
         set_currentLanguage log_fetch dispatched].
    rewrite (Hlog _ dispatched) by done.
    reflexivity.
  - by destruct (supported_config _ Hsupported) as (config & -> & _).
Qed.

Lemma changeLanguage_effects_example :
  current (fst (changeLanguage "fr" NoResponse english_world)) = "fr".
Proof.
  apply (changeLanguage_effects "fr" NoResponse english_world);
    [reflexivity | discriminate | reflexivity | reflexivity].
Defined.

(** X10. A switch that goes through is remembered: on a rooted path, a
    detection run in the browser as the switch leaves it
    returns the new language, unless the query string names a supported
    language (which a switch does not touch and which comes first). *)
Theorem changeLanguage_then_detectLanguage
    (language : string) (response : Response) (w : World) :
  isLanguageSupported language = true ->
  language <> current w ->
  storage_writable (browser w) = true ->
  rooted (pathname (browser w)) = true ->
  supported_value (search_lang (browser w)) = false ->
  detectLanguage (browser (fst (changeLanguage language response w)))
  = language.
Proof.
  intros Hsupported Hother Hwritable Hrooted Hquery.
  rewrite changeLanguage_success by done.
  set (w2 := set_translation _ _ _).
  assert (current w2 = language) as Hcurrent by reflexivity.
  assert (pathname (browser w2) = pathname (browser w)) as Hpath2.
  { subst w2. cbn. by destruct (failed response). }
  assert (search_lang (browser w2) = search_lang (browser w)) as Hsearch2.
  { subst w2. cbn. by destruct (failed response). }
  destruct (updateURL_extract w2) as (Hsame & Hextract);
    [by rewrite Hcurrent | by rewrite Hpath2 |].
  rewrite updatePageDirection_supported
    by by rewrite updateURL_current, Hcurrent.
  set (b' := browser _).
  assert (search_lang b' = search_lang (browser w)) as Hsearch.
  { subst b'. cbn. by rewrite updateURL_search_lang. }
  assert (extractLanguageFromPath b'
          = extractLanguageFromPath (browser (updateURL w2))) as Hsamepath
    by reflexivity.
  assert (localStorage b' !! "sonar_language" = Some language) as Hstored.
  { subst b'. cbn. apply lookup_insert_eq. }
  unfold detectLanguage. rewrite Hsearch, Hquery, Hsamepath.
  destruct (extractLanguageFromPath (browser w2)) as [old |] eqn:Hold.
  - rewrite Hextract by by left.
    by rewrite supported_value_Some, Hcurrent, Hsupported.
  - destruct (String.eqb_spec language defaultLanguage) as [Hdefault | Hne].
    + rewrite Hsame by congruence. rewrite Hold.
      cbn [supported_value JS.truthy_opt andb].
      by rewrite Hstored, supported_value_Some, Hsupported.
    + rewrite Hextract by (right; congruence).
      by rewrite supported_value_Some, Hcurrent, Hsupported.
Qed.

Lemma changeLanguage_then_detectLanguage_example :
  detectLanguage (browser (fst (changeLanguage "en" NoResponse spanish_world)))
  = "en".
Proof.
  apply (changeLanguage_then_detectLanguage "en");
    [reflexivity | discriminate | reflexivity | reflexivity | reflexivity].
Defined.

(** ** Start-up *)

Lemma load_settle_world language response w :
  fst (load_settle language response w)
  = set_translation language (stored language response)
      (with_browser (if failed response then log_console else id) w).
Proof.
  unfold load_settle, stored, failed, load_try.
  destruct response as [| [] []]; reflexivity.
Qed.

Lemma resume_LoadingActive language response w :
  resume (LoadingActive language) response w
  = let w := fst (load_settle language response w) in
    if negb (String.eqb (current w) defaultLanguage)
    then (load_request defaultLanguage w, Some LoadingDefault)
    else (loadTranslations_end w, None).
Proof.
  cbn [resume].
  pose proof (load_settle_fulfilled language response w) as Hfulfilled.
  destruct (load_settle language response w) as [w2 loaded].
  cbn in Hfulfilled. by subst loaded.
Qed.

Lemma resume_LoadingDefault response w :
  resume LoadingDefault response w
  = (loadTranslations_end (fst (load_settle defaultLanguage response w)),
     None).
Proof.
  cbn [resume].
  pose proof (load_settle_fulfilled defaultLanguage response w) as Hfulfilled.
  destruct (load_settle defaultLanguage response w) as [w2 loaded].
  cbn in Hfulfilled. by subst loaded.
Qed.

(** The world [loadTranslations] ends in. *)
Lemma loadTranslations_world first second w :
  loadTranslations first second w
  = let w1 := fst (loadLanguageTranslations (current w) first w) in
    if String.eqb (current w) defaultLanguage
    then loadTranslations_end w1
    else loadTranslations_end
           (fst (loadLanguageTranslations defaultLanguage second w1)).
Proof.
  unfold loadTranslations, loadTranslations_begin.
  rewrite resume_LoadingActive. cbn zeta.
  rewrite load_settle_current.
  change (current (load_request (current w) w)) with (current w).
  destruct (String.eqb (current w) defaultLanguage); cbn [negb]; [done |].
  by rewrite resume_LoadingDefault.
Qed.

Lemma loadTranslations_end_frame w :
  current (loadTranslations_end w) = current w
  /\ translations (i18n (loadTranslations_end w)) = translations (i18n w)
  /\ initialized (i18n (loadTranslations_end w)) = true
  /\ fetched (browser (loadTranslations_end w)) = fetched (browser w)
  /\ notifications (loadTranslations_end w) = S (notifications w).
Proof.
  unfold loadTranslations_end, updatePageDirection, notifications.
  destruct (languageConfigs !! current w); cbn;
    rewrite length_app; cbn; repeat split; lia.
Qed.

Lemma loadTranslations_initialized first second w :
  initialized (i18n (loadTranslations first second w)) = true.
Proof.
  rewrite loadTranslations_world. cbn zeta.
  destruct (String.eqb (current w) defaultLanguage);
    match goal with
    | |- initialized (i18n (loadTranslations_end ?w1)) = true =>
        by destruct (loadTranslations_end_frame w1) as (_ & _ & ? & _)
    end.
Qed.

(** X11. [loadTranslations] leaves a tree in the store both for the
    active language and for the default language, so that [t] can fall
    back; it fetches the file of the active language and, when that is not
    the default, the default's file after it, and nothing else; it marks the
    engine initialized and dispatches one event. *)
Theorem loadTranslations_loads_both
    (first second : Response) (w : World) :
  let w' := loadTranslations first second w in
  current w' = current w
  /\ translations (i18n w') !! current w = Some (stored (current w) first)
  /\ translations (i18n w') !! defaultLanguage
     = Some (if String.eqb (current w) defaultLanguage
             then stored defaultLanguage first
             else stored defaultLanguage second)
  /\ fetched (browser w')
     = fetched (browser w)
       ++ translationsURL (current w)
          :: (if String.eqb (current w) defaultLanguage then []
              else [translationsURL defaultLanguage])
  /\ initialized (i18n w') = true
  /\ notifications w' = S (notifications w).
Proof.
  cbn zeta. rewrite loadTranslations_world. cbn zeta.
  destruct (String.eqb_spec (current w) defaultLanguage) as [Hdefault | Hne].
  - destruct (loadTranslations_end_frame
                (fst (loadLanguageTranslations (current w) first w)))
      as (-> & -> & -> & -> & ->).
    unfold loadLanguageTranslations.
    rewrite load_settle_current, load_settle_fetched, load_settle_translations.
    destruct (load_settle_browser_frame (current w) first
                (load_request (current w) w)) as (_ & Hdispatched & _).
    unfold notifications. rewrite Hdispatched.
    rewrite <- Hdefault, !lookup_insert_eq.
    done.
  - set (w1 := fst (loadLanguageTranslations (current w) first w)).
    destruct (loadTranslations_end_frame
                (fst (loadLanguageTranslations defaultLanguage second w1)))
      as (-> & -> & -> & -> & ->).
    unfold loadLanguageTranslations in *.
    rewrite !load_settle_current, !load_settle_fetched,
      !load_settle_translations.
    destruct (load_settle_browser_frame defaultLanguage second
                (load_request defaultLanguage w1)) as (_ & Hd2 & _).
    unfold notifications. rewrite Hd2.
    subst w1.
    destruct (load_settle_browser_frame (current w) first
                (load_request (current w) w)) as (_ & Hd1 & _).
    cbn [load_request with_browser browser log_fetch dispatched fetched i18n]
      in *.
    rewrite Hd1, load_settle_fetched, load_settle_translations.
    cbn [load_request with_browser browser log_fetch dispatched fetched i18n].
    rewrite lookup_insert_ne by done.
    rewrite !lookup_insert_eq, <- app_assoc.
    split_and!; try done.
    change (current (load_request defaultLanguage ?x)) with (current x).
    by rewrite load_settle_current.
Qed.

(** X12. [initialize] runs the loading once: on an engine that is
    already initialized it changes nothing and fetches nothing, and after
    any run of it the engine is initialized, so a second run is a no-op. *)
Theorem initialize_once
    (first second first' second' : Response) (w : World) :
  (initialized (i18n w) = true -> initialize first second w = w)
  /\ initialized (i18n (initialize first second w)) = true
  /\ initialize first' second' (initialize first second w)
     = initialize first second w.
Proof.
  assert (initialized (i18n (initialize first second w)) = true) as Hdone.
  { unfold initialize.
    destruct (initialized (i18n w)) eqn:Hw; [exact Hw |].
    apply loadTranslations_initialized. }
  split; [| split; [exact Hdone |]].
  - intros Hw. unfold initialize. by rewrite Hw.
  - unfold initialize at 1. by rewrite Hdone.
Qed.

(** ** What every run keeps *)

Lemma default_supported : isLanguageSupported defaultLanguage = true.
Proof. reflexivity. Qed.

Lemma sound_set_currentLanguage language w :
  isLanguageSupported language = true ->
  world_sound w -> world_sound (set_currentLanguage language w).
Proof. intros Hsupported []. by constructor. Qed.

Lemma sound_load_request language w :
  isLanguageSupported language = true ->
  world_sound w -> world_sound (load_request language w).
Proof.
  intros Hsupported []. constructor; try done. cbn.
  apply Forall_app. split; [done |].
  apply Forall_singleton. by exists language.
Qed.

Lemma sound_log_console w :
  world_sound w -> world_sound (with_browser log_console w).
Proof. intros []. by constructor. Qed.

Lemma sound_load_settle language response w :
  isLanguageSupported language = true ->
  world_sound w -> world_sound (fst (load_settle language response w)).
Proof.
  intros Hsupported Hw. rewrite load_settle_world.
  assert (world_sound
            (with_browser (if failed response then log_console else id) w))
    as [].
  { destruct (failed response); [by apply sound_log_console | by destruct w]. }
  constructor; try done. cbn. intros language' Hsome.
  destruct (decide (language = language')) as [<- | Hne]; [done |].
  rewrite lookup_insert_ne in Hsome by done. auto.
Qed.

Lemma sound_updateURL w : world_sound w -> world_sound (updateURL w).
Proof.
  intros Hw.
  pose proof (updateURL_rooted w (sound_current _ Hw) (sound_pathname _ Hw))
    as Hrooted.
  destruct Hw. constructor; [| done | ..].
  - by rewrite updateURL_current.
  - by rewrite updateURL_i18n.
  - by rewrite updateURL_i18n.
  - by rewrite updateURL_fetched.
  - by rewrite updateURL_dispatched.
Qed.

Lemma sound_updatePageDirection w :
  world_sound w -> world_sound (updatePageDirection w).
Proof.
  intros Hw. rewrite updatePageDirection_supported by by destruct Hw.
  destruct Hw. by constructor.
Qed.

Lemma sound_setItem key value w :
  world_sound w -> world_sound (with_browser (setItem key value) w).
Proof. intros []. by constructor. Qed.

Lemma sound_set_initialized flag w :
  world_sound w -> world_sound (set_initialized flag w).
Proof. intros []. by constructor. Qed.

Lemma sound_dispatchLanguageChangeEvent w :
  world_sound w -> world_sound (dispatchLanguageChangeEvent w).
Proof.
  intros []. constructor; try done. cbn.
  apply Forall_app. split; [done |].
  apply Forall_singleton. by repeat split.
Qed.

Lemma sound_loadTranslations_end w :
  world_sound w -> world_sound (loadTranslations_end w).
Proof.
  intros Hw. unfold loadTranslations_end.
  by apply sound_dispatchLanguageChangeEvent, sound_set_initialized,
    sound_updatePageDirection.
Qed.

Lemma sound_changeLanguage_finish s response w :
  task_sound (Switching s) ->
  world_sound w -> world_sound (changeLanguage_finish s response w).
Proof.
  intros [Hprevious Hrequested] Hw. unfold changeLanguage_finish.
  pose proof (sound_load_settle (language_requested s) response w
                Hrequested Hw) as Hw2.
  pose proof (load_settle_fulfilled (language_requested s) response w)
    as Hfulfilled.
  destruct (load_settle _ _ _) as [w2 loaded].
  cbn in Hw2, Hfulfilled. subst loaded.
  unfold changeLanguage_resume.
  pose proof (updateURL_returns w2 (sound_current _ Hw2)
                (sound_pathname _ Hw2)) as Hreturns.
  destruct (storage_writable (browser w2)) eqn:Hwritable.
  - rewrite changeLanguage_try_writable by done. cbn [fst].
    by apply sound_dispatchLanguageChangeEvent, sound_setItem,
      sound_updatePageDirection, sound_updateURL.
  - rewrite changeLanguage_try_unwritable by done. cbn [fst].
    by apply sound_set_currentLanguage, sound_log_console,
      sound_updatePageDirection, sound_updateURL.
Qed.

Lemma sound_resume task response w :
  task_sound task -> world_sound w ->
  world_sound (fst (resume task response w))
  /\ Forall task_sound (option_list (snd (resume task response w))).
Proof.
  intros Htask Hw. destruct task as [s | language |].
  - cbn. split; [by apply sound_changeLanguage_finish | constructor].
  - rewrite resume_LoadingActive. cbn zeta.
    pose proof (sound_load_settle language response w Htask Hw) as Hw2.
    destruct (negb _); cbn.
    + split; [| by repeat constructor].
      by apply sound_load_request.
    + split; [by apply sound_loadTranslations_end | constructor].
  - rewrite resume_LoadingDefault. cbn.
    split; [| constructor].
    by apply sound_loadTranslations_end, sound_load_settle.
Qed.

Lemma sound_step r h : sound r -> sound (step r h).
Proof.
  intros [Hw Htasks]. destruct h as [language | | i response]; cbn [step].
  - unfold changeLanguage_begin.
    destruct (negb (isLanguageSupported language)) eqn:Hsupported; cbn [orb].
    { split; [done |]. cbn. by rewrite app_nil_r. }
    apply negb_false_iff in Hsupported.
    destruct (String.eqb language (current (world r))).
    { split; [done |]. cbn. by rewrite app_nil_r. }
    split; cbn.
    + by apply sound_load_request, sound_set_currentLanguage.
    + apply Forall_app. split; [done |].
      apply Forall_singleton. split; [by destruct Hw | done].
  - unfold initialize_begin.
    destruct (initialized (i18n (world r))).
    { split; [done |]. cbn. by rewrite app_nil_r. }
    split; cbn.
    + apply sound_load_request; [by destruct Hw | done].
    + apply Forall_app. split; [done |].
      apply Forall_singleton. by destruct Hw.
  - destruct (tasks r !! i) as [task |] eqn:Htask; [| done].
    assert (task_sound task) as Hsound
      by by eapply Forall_lookup_1.
    destruct (sound_resume task response (world r) Hsound Hw)
      as [Hw' Hnext].
    destruct (resume task response (world r)) as [w' next].
    split; [exact Hw' |]. cbn.
    apply Forall_app. split; [by apply Forall_delete | exact Hnext].
Qed.

Lemma sound_start b :
  rooted (pathname b) = true ->
  Forall url_sound (fetched b) -> Forall event_sound (dispatched b) ->
  sound (start b).
Proof.
  intros Hrooted Hfetched Hdispatched.
  assert (isLanguageSupported (detectLanguage b) = true) as Hdetected.
  { rewrite detectLanguage_first_supported.
    apply first_supported_supported. }
  split; cbn.
  - apply sound_load_request; [done |].
    constructor; try done. cbn. intros language [tree Htree].
    by rewrite lookup_empty in Htree.
  - by apply Forall_singleton.
Qed.

(** X13. Whatever calls of [changeLanguage] and [initialize] are made
    and in whatever order the fetches are answered, from the construction
    of the instance on a page with a rooted path on: the active language
    is a supported one, the path stays rooted (so that no call of
    [history.replaceState] is refused), [isRTL] is false, trees are stored
    under supported codes only, only the translation files of supported
    codes are fetched, every suspended method refers to supported codes
    only, and every event dispatched carries a supported code, its
    registry entry and [isRTL = false]. *)
Theorem engine_stays_sound (b : Browser) (happenings : list Happening) :
  rooted (pathname b) = true ->
  Forall url_sound (fetched b) ->
  Forall event_sound (dispatched b) ->
  sound (run happenings (start b)).
Proof.
  intros Hrooted Hfetched Hdispatched.
  pose proof (sound_start b Hrooted Hfetched Hdispatched) as Hstart.
  revert Hstart. generalize (start b). unfold run.
  induction happenings as [| h rest IH]; intros r Hr; [exact Hr |].
  cbn [foldl]. by apply IH, sound_step.
Qed.

Lemma engine_stays_sound_example :
  sound (run [Calls_changeLanguage "fr"; Calls_changeLanguage "de";
              Answers 0 NoResponse; Calls_initialize;
              Answers 1 (Responded true NotJSON)]
           (start example_browser)).
Proof. apply engine_stays_sound; [reflexivity | constructor ..]. Defined.

(** ** Relative time *)

Lemma quotient_below_one d s :
  (0 < s)%Z -> (1 <=? d / s)%Z = false -> (d < s)%Z.
Proof.
  intros Hs Hq%Z.leb_gt.
  destruct (Z_lt_le_dec d s) as [| Hge]; [done |].
  assert (1 <= d / s)%Z by (apply Z.div_le_lower_bound; lia). lia.
Qed.

Lemma quotient_at_least_one d s :
  (0 < s)%Z -> (1 <=? d / s)%Z = true ->
  (1 <= d / s /\ d / s * s <= d < (d / s + 1) * s)%Z.
Proof.
  intros Hs Hq%Z.leb_le.
  pose proof (Z.mul_div_le d s Hs).
  pose proof (Z.mul_succ_div_gt d s Hs).
  lia.
Qed.

(** X14. When [getRelativeTime] hands a value and a unit to the
    platform's formatter, the locale is the active language, the value is
    negative (the past), the unit is the largest one that fits into the
    elapsed seconds, and the value counts how many whole units fit. *)
Theorem getRelativeTime_unit
    (now time : Z) (w : World) (locale : string) (value : Z)
    (unit : TimeUnit) :
  (Z.abs (now - time) < 2 ^ 53)%Z ->
  getRelativeTime now (Some time) w = Formatted locale value unit ->
  let elapsed := ((now - time) / 1000)%Z in
  locale = current w
  /\ (value <= -1)%Z
  /\ (- value * seconds_in unit <= elapsed
      < (- value + 1) * seconds_in unit)%Z
  /\ forall larger,
       (seconds_in unit < seconds_in larger)%Z ->
       (elapsed < seconds_in larger)%Z.
Proof.
  intros _. unfold getRelativeTime.
  set (elapsed := ((now - time) / 1000)%Z).
  cbn [pick_unit timeUnits].
  repeat
    (match goal with
     | |- context [(1 <=? elapsed / ?s)%Z] =>
         let H := fresh "H" in
         destruct (1 <=? elapsed / s)%Z eqn:H;
         [apply quotient_at_least_one in H; [| lia]
         |apply quotient_below_one in H; [| lia]]
     end);
    try discriminate;
    intros [= <- <- <-]; cbn zeta;
    (split; [reflexivity |]); (split; [lia |]);
    (split; [cbn [seconds_in]; lia |]);
    intros []; cbn [seconds_in]; lia.
Qed.

Lemma getRelativeTime_unit_example :
  (1 * seconds_in week <= (1700000000000 - 1699000000000) / 1000
   < (1 + 1) * seconds_in week)%Z.
Proof.
  apply (getRelativeTime_unit 1700000000000 1699000000000 english_world
           "en" (-1) week); reflexivity.
Defined.

(** X15. [getRelativeTime] answers in words exactly when the date is
    invalid or lies less than a minute back (or ahead); the words are then
    what [t('common.just_now')] returns, which is never empty, so that the
    literal ['just now'] behind [||] is never used. *)
Theorem getRelativeTime_just_now (now : Z) (date : option Z) (w : World) :
  from_option (fun time => Z.abs (now - time) < 2 ^ 53)%Z True date ->
  ((exists outcome, getRelativeTime now date w = Said outcome)
   <-> from_option (fun time => now - time < 60000)%Z True date)
  /\ forall outcome,
       getRelativeTime now date w = Said outcome ->
       outcome = t "common.just_now" None w
       /\ exists text, outcome = Returns text /\ text <> "".
Proof.
  intros _.
  assert (or_else (t "common.just_now" None w) "just now"
          = t "common.just_now" None w
          /\ exists text, t "common.just_now" None w = Returns text
                          /\ text <> "") as [Hwords Htext].
  { pose proof (candidate_not_empty "common.just_now" w) as Hne.
    change (t "common.just_now" None w)
      with (Returns (candidate "common.just_now" w)).
    split; [| eexists; split; [reflexivity | by apply Hne]].
    cbn [or_else].
    destruct (candidate "common.just_now" w); [by destruct Hne | done]. }
  destruct date as [time |]; cbn [from_option getRelativeTime].
  - set (elapsed := ((now - time) / 1000)%Z).
    assert (now - time < 60000 <-> elapsed < 60)%Z as Hminute.
    { unfold elapsed. split; intros H.
      - apply Z.div_lt_upper_bound; lia.
      - destruct (Z_lt_le_dec (now - time) 60000) as [| Hge]; [done |].
        assert (60 <= (now - time) / 1000)%Z
          by (apply Z.div_le_lower_bound; lia). lia. }
    rewrite Hminute. clear Hminute.
    cbn [pick_unit timeUnits].
    repeat
      (match goal with
       | |- context [(1 <=? elapsed / ?s)%Z] =>
           let H := fresh "H" in
           destruct (1 <=? elapsed / s)%Z eqn:H;
           [apply quotient_at_least_one in H; [| lia]
           |apply quotient_below_one in H; [| lia]]
       end).
    all: try (split;
                [split; [by intros [outcome [=]] | intros ?; lia]
                |by intros outcome [=]]).
    split; [split; [intros _; lia | by eexists] |].
    intros outcome Hsaid.
    assert (outcome = or_else (t "common.just_now" None w) "just now")
      as -> by congruence.
    by rewrite Hwords.
  - split; [split; [done | by eexists] |].
    intros outcome Hsaid.
    assert (outcome = or_else (t "common.just_now" None w) "just now")
      as -> by congruence.
    by rewrite Hwords.
Qed.

Lemma getRelativeTime_just_now_example :
  getRelativeTime 1700000030000 (Some 1700000000000%Z) english_world
  = Said (t "common.just_now" None english_world).
Proof.
  destruct (getRelativeTime_just_now 1700000030000 (Some 1700000000000%Z)
              english_world) as [_ Hwords]; [reflexivity |].
  destruct (Hwords (Returns "common.just_now")) as [-> _]; reflexivity.
Defined.

(** ** The text marquee *)

Lemma marquee_spans_separated index n items :
  n = index + length items ->
  marquee_spans index n items = separated items.
Proof.
  revert index. induction items as [| item rest IH]; intros index Hn;
    [reflexivity |].
  cbn [marquee_spans length] in *.
  rewrite (IH (S index)) by lia.
  destruct rest as [| item' rest'].
  - cbn [length] in Hn.
    assert ((Z.of_nat index <? Z.of_nat n - 1)%Z = false) as ->
      by (apply Z.ltb_ge; lia).
    reflexivity.
  - cbn [length] in Hn.
    assert ((Z.of_nat index <? Z.of_nat n - 1)%Z = true) as ->
      by (apply Z.ltb_lt; lia).
    reflexivity.
Qed.

Lemma separated_cons item rest :
  separated (item :: rest)
  = marquee_item item
    :: match rest with
       | [] => []
       | _ :: _ => marquee_separator :: separated rest
       end.
Proof. by destruct rest. Qed.

Lemma separated_length items :
  length (separated items) = 2 * length items - 1.
Proof.
  induction items as [| item rest IH]; [done |].
  rewrite separated_cons. destruct rest as [| item' rest']; [done |].
  cbn [length] in *. lia.
Qed.

Lemma separated_items items : omap span_text (separated items) = items.
Proof.
  induction items as [| item rest IH]; [done |].
  rewrite separated_cons. destruct rest as [| item' rest']; [done |].
  assert (forall spans,
             omap span_text (marquee_item item :: marquee_separator :: spans)
             = item :: omap span_text spans) as -> by done.
  by rewrite IH.
Qed.

Lemma separated_last items :
  last (separated items) = marquee_item <$> last items.
Proof.
  induction items as [| item rest IH]; [done |].
  rewrite separated_cons. destruct rest as [| item' rest']; [done |].
  rewrite last_cons_cons.
  rewrite separated_cons in IH |- *.
  rewrite !last_cons_cons. exact IH.
Qed.

(** X16. The children [createTextMarquee] builds are the items in their
    order with one separator between any two neighbours: none in front,
    none at the end, none for a single item and nothing for no items;
    [2n - 1] spans for [n >= 1] items. *)
Theorem createTextMarquee_children_separated (items : list string) :
  createTextMarquee_children items = separated items
  /\ length (createTextMarquee_children items) = 2 * length items - 1
  /\ omap span_text (createTextMarquee_children items) = items
  /\ last (createTextMarquee_children items) = marquee_item <$> last items.
Proof.
  assert (createTextMarquee_children items = separated items) as ->
    by by apply marquee_spans_separated.
  split; [done |]. split; [apply separated_length |].
  split; [apply separated_items | apply separated_last].
Qed.

(** ** The content cache *)

Lemma cached_truthy key c data :
  CMS.cached key c = Some data ->
  CMS.cache c !! key = Some data /\ truthy_value data = true.
Proof.
  unfold CMS.cached. destruct (CMS.cache c !! key) as [data' |]; [| done].
  destruct (truthy_value data') eqn:Htruthy; [| done].
  by intros [= <-].
Qed.

Lemma cached_insert key data c requested errors :
  truthy_value data = true ->
  CMS.cached key {| CMS.cache := <[key := data]> (CMS.cache c);
                    CMS.requested := requested; CMS.errors := errors |}
  = Some data.
Proof.
  intros Htruthy. unfold CMS.cached. cbn. by rewrite lookup_insert_eq, Htruthy.
Qed.

(** X17. The content loaders cache what they fetch: after a load whose
    fetch was answered with truthy JSON, every further load of the same
    key returns that data and fetches nothing, whatever the server would
    answer; a load that finds a truthy entry does not fetch either. *)
Theorem load_cached
    (key url : string) (fallback data : JSON) (response : Response)
    (c : CMS.State) :
  CMS.cached key c = None ->
  truthy_value data = true ->
  let first := CMS.load key url fallback (Responded true (Parsed data)) c in
  let second := CMS.load key url fallback response (snd first) in
  fst first = data
  /\ CMS.requested (snd first) = CMS.requested c ++ [url]
  /\ second = (data, snd first).
Proof.
  intros Hmiss Htruthy. cbn zeta.
  assert (CMS.load key url fallback (Responded true (Parsed data)) c
          = (data, {| CMS.cache := <[key := data]> (CMS.cache c);
                      CMS.requested := CMS.requested c ++ [url];
                      CMS.errors := CMS.errors c |})) as ->.
  { unfold CMS.load. by rewrite Hmiss. }
  cbn [fst snd]. split; [done |]. split; [done |].
  unfold CMS.load. by rewrite cached_insert.
Qed.

Lemma load_cached_example :
  CMS.load "projects" "/src/data/projects.json" CMS.no_projects NoResponse
    (snd (CMS.loadProjects (Responded true (Parsed CMS.no_team))
            CMS.construct))
  = (CMS.no_team,
     snd (CMS.loadProjects (Responded true (Parsed CMS.no_team))
            CMS.construct)).
Proof.
  apply (load_cached "projects" "/src/data/projects.json" CMS.no_projects
           CMS.no_team NoResponse CMS.construct); reflexivity.
Defined.

(** X18. Failures and falsy data are not served from the cache: a load
    whose fetch fails returns the fallback, leaves the cache as it was and
    logs an error, and a load answered with falsy JSON ([null], [false],
    [0], the empty string) stores it; in both cases the next load asks the
    server again. *)
Theorem load_not_cached
    (key url : string) (fallback : JSON) (response response' : Response)
    (c : CMS.State) :
  CMS.cached key c = None ->
  failed response = true
  \/ (exists data, response = Responded true (Parsed data)
                   /\ truthy_value data = false) ->
  let first := CMS.load key url fallback response c in
  let second := CMS.load key url fallback response' (snd first) in
  (failed response = true ->
   fst first = fallback
   /\ CMS.cache (snd first) = CMS.cache c
   /\ CMS.errors (snd first) = S (CMS.errors c))
  /\ CMS.cached key (snd first) = None
  /\ CMS.requested (snd second) = CMS.requested c ++ [url; url].
Proof.
  intros Hmiss Hresponse. cbn zeta.
  assert (forall c' r, CMS.cached key c' = None ->
            CMS.requested (snd (CMS.load key url fallback r c'))
            = CMS.requested c' ++ [url]) as Hasks.
  { intros c' r Hc'. unfold CMS.load. rewrite Hc'.
    by destruct (load_try r). }
  destruct Hresponse as [Hfailed | (data & -> & Hfalsy)].
  - assert (CMS.load key url fallback response c
            = (fallback, {| CMS.cache := CMS.cache c;
                            CMS.requested := CMS.requested c ++ [url];
                            CMS.errors := S (CMS.errors c) |})) as ->.
    { unfold CMS.load. rewrite Hmiss.
      by destruct response as [| [] []]. }
    cbn [fst snd]. split; [done |].
    assert (CMS.cached key
              {| CMS.cache := CMS.cache c;
                 CMS.requested := CMS.requested c ++ [url];
                 CMS.errors := S (CMS.errors c) |} = None) as Hstill
      by exact Hmiss.
    split; [exact Hstill |].
    rewrite Hasks by exact Hstill. cbn. by rewrite <- app_assoc.
  - split; [done |].
    assert (CMS.load key url fallback (Responded true (Parsed data)) c
            = (data, {| CMS.cache := <[key := data]> (CMS.cache c);
                        CMS.requested := CMS.requested c ++ [url];
                        CMS.errors := CMS.errors c |})) as ->.
    { unfold CMS.load. by rewrite Hmiss. }
    cbn [fst snd].
    assert (CMS.cached key
              {| CMS.cache := <[key := data]> (CMS.cache c);
                 CMS.requested := CMS.requested c ++ [url];
                 CMS.errors := CMS.errors c |} = None) as Hstill.
    { unfold CMS.cached. cbn. by rewrite lookup_insert_eq, Hfalsy. }
    split; [exact Hstill |].
    rewrite Hasks by exact Hstill. cbn. by rewrite <- app_assoc.
Qed.

Lemma load_not_cached_example :
  CMS.requested
    (snd (CMS.loadProjects NoResponse
            (snd (CMS.loadProjects NoResponse CMS.construct))))
  = ["/src/data/projects.json"; "/src/data/projects.json"].
Proof.
  apply (load_not_cached "projects" "/src/data/projects.json"
           CMS.no_projects NoResponse NoResponse CMS.construct);
    [reflexivity | by left].
Defined.

Lemma cached_initializeCache key c :
  CMS.cache c = ∅ -> CMS.cached key (CMS.initializeCache c) = None.
Proof.
  intros Hc. unfold CMS.cached, CMS.initializeCache. cbn.
  rewrite Hc, !lookup_insert.
  repeat case_decide; try done.
Qed.

(** X19. [clearCache] forgets everything: the first load of any key
    after it asks the server again, whatever was cached before, just as
    the first load on a new instance does. *)
Theorem clearCache_forgets
    (key url : string) (fallback : JSON) (response : Response)
    (c : CMS.State) :
  CMS.requested (snd (CMS.load key url fallback response (CMS.clearCache c)))
  = CMS.requested c ++ [url]
  /\ CMS.requested (snd (CMS.load key url fallback response CMS.construct))
     = [url].
Proof.
  split; unfold CMS.load.
  - unfold CMS.clearCache. rewrite cached_initializeCache by done.
    by destruct (load_try response).
  - unfold CMS.construct. rewrite cached_initializeCache by done.
    by destruct (load_try response).
Qed.

(** ** Related posts *)

Lemma includes_elem_of tag tags :
  CMS.includes tag tags = true <-> tag ∈ tags.
Proof.
  unfold CMS.includes. rewrite existsb_exists. split.
  - intros (tag' & Hin & ->%String.eqb_eq). by apply list_elem_of_In.
  - intros Hin. exists tag. split; [by apply list_elem_of_In |].
    apply String.eqb_refl.
Qed.

Lemma shared_tags_length (tags1 tags2 : list string) :
  NoDup tags1 -> NoDup tags2 ->
  length (List.filter (fun tag => CMS.includes tag tags2) tags1)
  = length (List.filter (fun tag => CMS.includes tag tags1) tags2).
Proof.
  intros Hnodup1 Hnodup2. apply Permutation_length, NoDup_Permutation.
  - by apply NoDup_ListNoDup, List.NoDup_filter, NoDup_ListNoDup.
  - by apply NoDup_ListNoDup, List.NoDup_filter, NoDup_ListNoDup.
  - intros tag. rewrite !list_elem_of_In, !List.filter_In,
      <- !list_elem_of_In, !includes_elem_of. tauto.
Qed.

Lemma shared_tags_bound (tags1 tags2 : list string) :
  length (List.filter (fun tag => CMS.includes tag tags2) tags1)
  <= length tags1.
Proof. apply List.filter_length_le. Qed.

(** X20. The relatedness score of two posts whose tag lists have no
    repeated tag does not depend on their order; it is three for the same
    category plus one for the same author plus two for each shared tag,
    hence at most [4 + 2 * number of tags]; and a post scores exactly that
    against itself. *)
Theorem calculateRelatedScore_symmetric (post1 post2 : CMS.BlogPost) :
  NoDup (CMS.tags post1) -> NoDup (CMS.tags post2) ->
  CMS.calculateRelatedScore post1 post2 = CMS.calculateRelatedScore post2 post1
  /\ CMS.calculateRelatedScore post1 post2 <= 4 + 2 * length (CMS.tags post1)
  /\ CMS.calculateRelatedScore post1 post1 = 4 + 2 * length (CMS.tags post1).
Proof.
  intros Hnodup1 Hnodup2. unfold CMS.calculateRelatedScore. cbn zeta.
  split; [| split].
  - rewrite (shared_tags_length _ _ Hnodup1 Hnodup2).
    rewrite (String.eqb_sym (CMS.category post2)),
      (String.eqb_sym (CMS.author_id post2)).
    reflexivity.
  - pose proof (shared_tags_bound (CMS.tags post1) (CMS.tags post2)).
    destruct (String.eqb _ _), (String.eqb _ _); lia.
  - rewrite !String.eqb_refl.
    assert (List.filter (fun tag => CMS.includes tag (CMS.tags post1))
              (CMS.tags post1) = CMS.tags post1) as ->.
    { apply List.forallb_filter_id, forallb_forall.
      intros tag Hin. by apply includes_elem_of, list_elem_of_In. }
    lia.
Qed.

Lemma calculateRelatedScore_symmetric_example :
  CMS.calculateRelatedScore
    {| CMS.category := "film"; CMS.author_id := "a1";
       CMS.tags := ["foley"; "mixing"] |}
    {| CMS.category := "film"; CMS.author_id := "a2";
       CMS.tags := ["mixing"; "score"; "foley"] |}
  = CMS.calculateRelatedScore
      {| CMS.category := "film"; CMS.author_id := "a2";
         CMS.tags := ["mixing"; "score"; "foley"] |}
      {| CMS.category := "film"; CMS.author_id := "a1";
         CMS.tags := ["foley"; "mixing"] |}.
Proof.
  apply calculateRelatedScore_symmetric;
    by apply (bool_decide_unpack _).
Defined.

(** ** The code in the path, characterised *)

(** X21. [extractLanguageFromPath] answers with a code exactly when the
    path is any number of slashes, then a supported code, then nothing or
    a slash and anything; so an empty path, a path of slashes only and a
    path whose first segment merely begins with a code have no code. *)
Theorem extractLanguageFromPath_iff (b : Browser) (code : string) :
  extractLanguageFromPath b = Some code
  <-> isLanguageSupported code = true
      /\ exists slashes rest,
          pathname b = slashes +:+ code +:+ rest
          /\ all_chars is_slash slashes = true
          /\ (rest = "" \/ exists tail, rest = "/" +:+ tail).
Proof.
  split.
  - apply extractLanguageFromPath_shape.
  - intros (Hcode & slashes & rest & Hpath & Hslashes & Hrest).
    by eapply extractLanguageFromPath_slashes.
Qed.

(** ** Two switches under way at once *)

(** What a suspended switch does when its load settles, on a writable
    storage and a rooted path and with a supported active language. *)
Lemma changeLanguage_finish_summary s response w :
  storage_writable (browser w) = true ->
  rooted (pathname (browser w)) = true ->
  isLanguageSupported (current w) = true ->
  let w' := changeLanguage_finish s response w in
  current w' = current w
  /\ storage_writable (browser w') = true
  /\ rooted (pathname (browser w')) = true
  /\ localStorage (browser w') !! "sonar_language"
     = Some (language_requested s)
  /\ document_lang (browser w') = current w
  /\ exists event,
      dispatched (browser w') = dispatched (browser w) ++ [event]
      /\ detail_language event = current w.
Proof.
  intros Hw Hrooted Hcurrent w'. subst w'.
  rewrite changeLanguage_finish_through by done.
  pose proof (load_settle_current (language_requested s) response w)
    as Hsame.
  destruct (load_settle_browser_frame (language_requested s) response w)
    as (Hpath & Hdispatched & Hwritable).
  set (w2 := fst (load_settle _ _ _)) in *.
  assert (isLanguageSupported (current (updateURL w2)) = true) as Hsupported
    by (by rewrite updateURL_current, Hsame).
  assert (rooted (pathname (browser (updateURL w2))) = true) as Hrooted'.
  { apply updateURL_rooted; [by rewrite Hsame | by rewrite Hpath]. }
  rewrite (updatePageDirection_supported _ Hsupported).
  split_and!.
  - cbn. by rewrite <- Hsame, <- (updateURL_current w2).
  - cbn. by rewrite updateURL_writable, Hwritable.
  - exact Hrooted'.
  - cbn. by rewrite lookup_insert_eq.
  - cbn. by rewrite <- Hsame, <- (updateURL_current w2).
  - eexists. cbn [dispatchLanguageChangeEvent with_browser browser
                  dispatchEvent dispatched setItem set_document set_isRTL].
    rewrite updateURL_dispatched, Hdispatched.
    split; [reflexivity |].
    cbn. by rewrite <- Hsame, <- (updateURL_current w2).
Qed.

(** X22. Two switches under way at once, to different supported codes,
    on a writable storage and a rooted path. Whichever load settles
    first, the active language and the document language end as the code
    of the call made last, the path stays rooted, and both events carry
    that code; the stored preference ends as the code of the call that
    finished last, so when the first call finishes last the stored
    preference is not the active language. *)
Theorem changeLanguage_overlap
    (first second : string) (r1 r2 : Response) (w : World) :
  isLanguageSupported first = true ->
  first <> current w ->
  isLanguageSupported second = true ->
  second <> first ->
  storage_writable (browser w) = true ->
  rooted (pathname (browser w)) = true ->
  let s1 := {| language_requested := first; previousLanguage := current w |} in
  let s2 := {| language_requested := second; previousLanguage := first |} in
  let w1 := fst (changeLanguage_begin first w) in
  let w2 := fst (changeLanguage_begin second w1) in
  snd (changeLanguage_begin first w) = Some s1
  /\ snd (changeLanguage_begin second w1) = Some s2
  /\ forall in_order : bool,
      let w' :=
        if in_order
        then changeLanguage_finish s2 r2 (changeLanguage_finish s1 r1 w2)
        else changeLanguage_finish s1 r1 (changeLanguage_finish s2 r2 w2) in
      current w' = second
      /\ rooted (pathname (browser w')) = true
      /\ document_lang (browser w') = second
      /\ localStorage (browser w') !! "sonar_language"
         = Some (if in_order then second else first)
      /\ exists e1 e2,
          dispatched (browser w') = dispatched (browser w) ++ [e1; e2]
          /\ detail_language e1 = second
          /\ detail_language e2 = second.
Proof.
  intros Hfirst Hother Hsecond Hdifferent Hw Hrooted s1 s2 w1 w2.
  subst w1 w2 s1 s2.
  rewrite (changeLanguage_begin_proceeds first w) by done.
  cbn [fst snd].
  rewrite (changeLanguage_begin_proceeds second) by done.
  cbn [fst snd].
  split; [done |]. split; [done |].
  set (w2 := load_request second _).
  assert (current w2 = second) as Hcurrent by reflexivity.
  assert (storage_writable (browser w2) = true) as Hw2 by exact Hw.
  assert (rooted (pathname (browser w2)) = true) as Hr2 by exact Hrooted.
  assert (dispatched (browser w2) = dispatched (browser w)) as Hd
    by reflexivity.
  assert (isLanguageSupported (current w2) = true) as Hs2
    by (by rewrite Hcurrent).
  clearbody w2.
  intros in_order.
  assert (forall sa sb ra rb,
    let w' := changeLanguage_finish sb rb (changeLanguage_finish sa ra w2) in
    current w' = second
    /\ rooted (pathname (browser w')) = true
    /\ document_lang (browser w') = second
    /\ localStorage (browser w') !! "sonar_language"
       = Some (language_requested sb)
    /\ exists e1 e2,
        dispatched (browser w') = dispatched (browser w) ++ [e1; e2]
        /\ detail_language e1 = second
        /\ detail_language e2 = second) as Hboth.
  { intros sa sb ra rb.
    destruct (changeLanguage_finish_summary sa ra w2 Hw2 Hr2 Hs2)
      as (Hc & Hwa & Hra & _ & _ & e1 & Hd1 & He1).
    destruct (changeLanguage_finish_summary sb rb
                (changeLanguage_finish sa ra w2) Hwa Hra)
      as (Hc' & _ & Hrb & Hstored & Hlang & e2 & Hd2 & He2);
      [by rewrite Hc |].
    cbn zeta. split_and!.
    - by rewrite Hc', Hc.
    - exact Hrb.
    - by rewrite Hlang, Hc.
    - done.
    - exists e1, e2. rewrite Hd2, Hd1, Hd, <- app_assoc.
      split; [done |]. split; congruence. }
  destruct in_order; apply Hboth.
Qed.

Lemma changeLanguage_overlap_example :
  let w' :=
    changeLanguage_finish
      {| language_requested := "es"; previousLanguage := "en" |}
      NoResponse
      (changeLanguage_finish
         {| language_requested := "fr"; previousLanguage := "es" |}
         NoResponse
         (fst (changeLanguage_begin "fr"
                 (fst (changeLanguage_begin "es" english_world))))) in
  current w' = "fr"
  /\ localStorage (browser w') !! "sonar_language" = Some "es".
Proof.
  destruct (changeLanguage_overlap "es" "fr" NoResponse NoResponse
              english_world eq_refl ltac:(discriminate) eq_refl
              ltac:(discriminate) eq_refl eq_refl) as (_ & _ & Hboth).
  destruct (Hboth false) as (Hcurrent & _ & _ & Hstored & _).
  split; [exact Hcurrent | exact Hstored].
Defined.
